(** * picofeed: a shallow embedding of the feed pipeline

    The development follows the program's source: the resolver
    ([parseFeedArg]), the fetcher with its one level of auto-discovery
    ([fetchFeed], [extractFeedLink]), the normaliser ([parseFeed]), the
    aggregator ([fetchAll]) and the grouper ([groupByDate]), then [main].

    What the program gets from its libraries and from the outside world
    (the network, the file system, [url.Parse], [time.Format],
    [sort.Sort], the gofeed parser) is a variable of the section
    [Picofeed]; the fixtures before the section give small concrete worlds
    on which the definitions can be run. *)

From Stdlib Require Import ZArith List String Ascii Bool Lia DecimalString.
From Stdlib Require Import Permutation Sorted Relations.
Import ListNotations.

Local Open Scope string_scope.
Local Open Scope list_scope.

(** ** Values of the Go program *)

(** [time.Time]: an instant, and the zone it is displayed in (seconds east
    of UTC).  [After] compares instants only; [Format] also reads the zone. *)
Record Time := mkTime { unixNano : Z; zoneOffset : Z }.

Definition Time_After (t u : Time) : bool := (unixNano u <? unixNano t)%Z.

(** [url.URL], field by field. *)
Record URL := mkURL {
  Scheme : string;
  Opaque : string;
  User : option string;
  Host : string;
  Path : string;
  RawPath : string;
  ForceQuery : bool;
  RawQuery : string;
  Fragment : string
}.

(** [newUrl := *baseUrl; newUrl.Path = p] *)
Definition withPath (baseUrl : URL) (p : string) : URL :=
  mkURL (Scheme baseUrl) (Opaque baseUrl) (User baseUrl) (Host baseUrl) p
        (RawPath baseUrl) (ForceQuery baseUrl) (RawQuery baseUrl)
        (Fragment baseUrl).

(** [type Post struct].  [Timestamp] is a pointer in the source; every
    [Post] the program builds has it set ([parseFeed] skips the items that
    would leave it nil), so the model stores the time itself. *)
Record Post := mkPost {
  Title : string;
  Link : string;
  Timestamp : Time;
  FeedLink : string;
  FeedTitle : string
}.

(** The fields of [gofeed.Item] and [gofeed.Feed] that the program reads. *)
Record Item := mkItem {
  Item_Title : string;
  Item_Link : string;
  PublishedParsed : option Time;
  UpdatedParsed : option Time
}.

Record Feed := mkFeed { Feed_Title : string; Items : list Item }.

(** The errors that the program builds or passes on. *)
Inductive error :=
| ErrTransport (cause : string)
| ErrStatus (code : Z)
| ErrReadBody (cause : string)
| ErrFeedTypeNotDetected
| ErrParse (msg : string)
| ErrNoFeedLink
| ErrUrlParse (line : string) (cause : string)
| ErrNotFileUrlParse (feed : string) (cause : string)
| ErrReadFile (feed : string) (cause : string).

(** What [client.Do] and [ioutil.ReadAll] give for one request. *)
Inductive Response :=
| DoError (cause : string)
| DoResponse (StatusCode : Z) (body : string + string).

(** What [os.Stat] gives: [os.IsNotExist], another error, or the mode. *)
Inductive StatResult :=
| StatNotExist
| StatError (cause : string)
| StatOk (isRegular : bool).

(** ** Strings *)

Definition dquote : string := String "034"%char EmptyString.
Definition newline : ascii := "010"%char.

(** [strings.Split(s, sep)] for a one-byte separator. *)
Fixpoint strings_Split (s : string) (sep : ascii) : list string :=
  match s with
  | EmptyString => [EmptyString]
  | String c s' =>
      if Ascii.eqb c sep then EmptyString :: strings_Split s' sep
      else match strings_Split s' sep with
           | l :: ls => String c l :: ls
           | [] => [String c EmptyString]
           end
  end.

Definition strings_HasPrefix (s p : string) : bool := String.prefix p s.

(** [strings.Join(lines, sep)], used to describe file contents. *)
Fixpoint strings_Join (lines : list string) (sep : ascii) : string :=
  match lines with
  | [] => EmptyString
  | [l] => l
  | l :: rest => l ++ String sep (strings_Join rest sep)
  end.

Fixpoint contains_char (c : ascii) (s : string) : bool :=
  match s with
  | EmptyString => false
  | String d s' => Ascii.eqb d c || contains_char c s'
  end.

(** ** Regular expressions

    The two patterns of [extractFeedLink] are sequences of literals and of
    greedy stars over one character class, one of them a capturing group.
    Go's [regexp] returns the leftmost match and, among those, the one a
    backtracking matcher finds first; [matchHere] is that matcher. *)
Module Regexp.

Inductive node :=
| Lit (s : string)
| Star (cls : ascii -> bool)
| Group (cls : ascii -> bool).

Definition regexp := list node.

(** [\s] *)
Definition space (c : ascii) : bool :=
  match nat_of_ascii c with
  | 9 | 10 | 12 | 13 | 32 => true
  | _ => false
  end.

(** [.] : any character but the newline *)
Definition dot (c : ascii) : bool := negb (Ascii.eqb c newline).

(** The class of every character but the double quote. *)
Definition notQuote (c : ascii) : bool := negb (Ascii.eqb c "034"%char).

Fixpoint stripPrefix (p s : string) : option string :=
  match p, s with
  | EmptyString, _ => Some s
  | String a p', String b s' =>
      if Ascii.eqb a b then stripPrefix p' s' else None
  | String _ _, EmptyString => None
  end.

(** Greedy [c*] followed by [k]: the longest run first, then shorter
    ones.  Returns the text the star consumed and the result of [k]. *)
Fixpoint star {X : Type} (cls : ascii -> bool) (k : string -> option X)
         (s : string) : option (string * X) :=
  match s with
  | String c s' =>
      if cls c then
        match star cls k s' with
        | Some (w, x) => Some (String c w, x)
        | None => option_map (pair EmptyString) (k s)
        end
      else option_map (pair EmptyString) (k s)
  | EmptyString => option_map (pair EmptyString) (k s)
  end.

(** Match [re] at the start of [s]: the captured groups and the rest. *)
Fixpoint matchHere (re : regexp) (s : string) : option (list string * string) :=
  match re with
  | [] => Some ([], s)
  | Lit l :: re' =>
      match stripPrefix l s with
      | Some s' => matchHere re' s'
      | None => None
      end
  | Star cls :: re' =>
      match star cls (matchHere re') s with
      | Some (_, r) => Some r
      | None => None
      end
  | Group cls :: re' =>
      match star cls (matchHere re') s with
      | Some (w, (caps, rest)) => Some (w :: caps, rest)
      | None => None
      end
  end.

(** [re.FindStringSubmatch(s)]: nil when nothing matches, otherwise the
    whole match followed by the groups. *)
Fixpoint FindStringSubmatch (re : regexp) (s : string) : list string :=
  match matchHere re s with
  | Some (caps, rest) =>
      substring 0 (String.length s - String.length rest) s :: caps
  | None =>
      match s with
      | String _ s' => FindStringSubmatch re s'
      | EmptyString => []
      end
  end.

End Regexp.

(** The pattern of a link tag of the given type: optional white space,
    [<link], anything, [type=] and the quoted type (left open), anything,
    [href=], and the quoted target, which is the captured group. *)
Definition linkRegexp (mime : string) : Regexp.regexp :=
  [ Regexp.Star Regexp.space;
    Regexp.Lit "<link";
    Regexp.Star Regexp.dot;
    Regexp.Lit ("type=" ++ dquote ++ mime);
    Regexp.Star Regexp.dot;
    Regexp.Lit ("href=" ++ dquote);
    Regexp.Group Regexp.notQuote;
    Regexp.Lit dquote ].

Definition regexes : list Regexp.regexp :=
  [ linkRegexp "application/rss+xml"; linkRegexp "application/atom+xml" ].

(** ** Sorting

    [insertionSort] is the stable insertion sort; [sort.Sort] runs it on
    short slices, and every stable sort returns the same slice. *)
Fixpoint insertStable (less : Post -> Post -> bool) (x : Post) (l : list Post)
  : list Post :=
  match l with
  | [] => [x]
  | y :: l' => if less y x then y :: insertStable less x l' else x :: y :: l'
  end.

Definition insertionSort (less : Post -> Post -> bool) (l : list Post)
  : list Post :=
  fold_right (insertStable less) [] l.

(** ** Fixtures

    Small concrete worlds on which the program's definitions are run. *)

(** The month and the year of a number of days since 1970-01-01 (the
    civil calendar, proleptic Gregorian). *)
Definition civilFromDays (days : Z) : Z * Z :=
  let z := (days + 719468)%Z in
  let era := (z / 146097)%Z in
  let doe := (z - era * 146097)%Z in
  let yoe := ((doe - doe / 1460 + doe / 36524 - doe / 146096) / 365)%Z in
  let doy := (doe - (365 * yoe + yoe / 4 - yoe / 100))%Z in
  let mp := ((5 * doy + 2) / 153)%Z in
  let m := if (mp <? 10)%Z then (mp + 3)%Z else (mp - 9)%Z in
  let y := (yoe + era * 400 + (if (m <=? 2)%Z then 1 else 0))%Z in
  (y, m).

Definition monthNames : list string :=
  ["Jan"; "Feb"; "Mar"; "Apr"; "May"; "Jun";
   "Jul"; "Aug"; "Sep"; "Oct"; "Nov"; "Dec"].

(** [t.Format] on the layout the program uses, [Jan 2006]: the month and
    the year of the instant as read in the zone of [t].  A layout without
    reference elements, such as the empty one, is returned as it is. *)
Definition formatJan2006 (t : Time) (layout : string) : string :=
  if String.eqb layout "Jan 2006" then
    let secs := (unixNano t / 1000000000 + zoneOffset t)%Z in
    let ym := civilFromDays (secs / 86400) in
    nth (Z.to_nat (snd ym - 1)) monthNames EmptyString ++ " "
      ++ NilZero.string_of_int (Z.to_int (fst ym))
  else layout.

(** A time from seconds since the epoch and a zone offset in seconds. *)
Definition unixTime (secs offset : Z) : Time :=
  mkTime (secs * 1000000000) offset.

Definition postAt (link : string) (t : Time) : Post :=
  mkPost "title" link t "http://a.example/feed.xml" "A".

(** 2023-02-15T12:00:00Z, 2023-01-31T23:30:00Z, 2023-02-01T01:00:00+02:00
    (which is 2023-01-31T23:00:00Z) and 2023-01-31T23:00:00Z. *)
Definition t_feb15_utc : Time := unixTime 1676462400 0.
Definition t_jan31_2330_utc : Time := unixTime 1675207800 0.
Definition t_feb01_0100_plus2 : Time := unixTime 1675206000 7200.
Definition t_jan31_2300_utc : Time := unixTime 1675206000 0.

(** [url.Parse] and [u.String()] on the addresses used here: an http
    address made of a host and a path, a relative path, and a string that
    starts with a colon, which [url.Parse] rejects for its missing scheme. *)
Fixpoint breakAtSlash (s : string) : string * string :=
  match s with
  | EmptyString => (EmptyString, EmptyString)
  | String c s' =>
      if Ascii.eqb c "/" then (EmptyString, s)
      else let hp := breakAtSlash s' in (String c (fst hp), snd hp)
  end.

Definition urlParse (s : string) : URL + string :=
  match Regexp.stripPrefix "http://" s with
  | Some r =>
      let hp := breakAtSlash r in
      inl (mkURL "http" "" None (fst hp) (snd hp) "" false "" "")
  | None =>
      if String.prefix ":" s then inr "missing protocol scheme"
      else inl (mkURL "" "" None "" s "" false "" "")
  end.

Definition urlString (u : URL) : string :=
  if String.eqb (Scheme u) "" then Path u
  else Scheme u ++ "://" ++ Host u ++ Path u.

Definition httpURL (host path : string) : URL :=
  mkURL "http" "" None host path "" false "" "".

Fixpoint lookup {A : Type} (k : string) (tbl : list (string * A)) (d : A) : A :=
  match tbl with
  | [] => d
  | (k', v) :: tbl' => if String.eqb k k' then v else lookup k tbl' d
  end.

(** Pages and feeds. *)
Definition quoted (s : string) : string := dquote ++ s ++ dquote.

Definition linkTag (mime href : string) : string :=
  "<link rel=" ++ quoted "alternate" ++ " type=" ++ quoted mime
    ++ " href=" ++ quoted href ++ ">".

Definition rssTag (href : string) : string := linkTag "application/rss+xml" href.
Definition atomTag (href : string) : string := linkTag "application/atom+xml" href.

Definition line (s : string) : string := s ++ String newline EmptyString.

(** A page that links to its feed. *)
Definition homePage : string :=
  "<html><head>" ++ rssTag "/feed.xml" ++ "</head></html>".


Definition pageTwoLines : string :=
  line "<html><head>" ++ line (rssTag "/rss.xml")
    ++ line (atomTag "/atom.xml") ++ "</head></html>".


Definition feedBody : string :=
  "<rss version='2.0'><channel><title>A</title><item><title>One</title>"
    ++ "<link>http://a.example/1</link>"
    ++ "<pubDate>Wed, 15 Feb 2023 12:00:00 GMT</pubDate></item>"
    ++ "</channel></rss>".

Definition feedA : Feed :=
  mkFeed "A" [mkItem "One" "http://a.example/1" (Some t_feb15_utc) None].

(** The hosts: [a.example] serves a page that links to its feed;
    [b.example] serves pages only; [c.example] does not answer. *)
Definition internet (req : string) : Response :=
  lookup req
    [ ("http://a.example/", DoResponse 200 (inl homePage));
      ("http://a.example/feed.xml", DoResponse 200 (inl feedBody));
      ("http://b.example/", DoResponse 200 (inl homePage));
      ("http://b.example/feed.xml", DoResponse 200 (inl homePage)) ]
    (DoError "no such host").

(** The parser on the bodies above: pages are not feeds. *)
Definition parseString (body : string) : Feed + error :=
  lookup body [ (feedBody, inl feedA) ] (inr ErrFeedTypeNotDetected).

(** The post that the page of [a.example] leads to when it is the target. *)
Definition homeURL : URL := httpURL "a.example" "/".

Definition postOne : Post :=
  mkPost "One" "http://a.example/1" t_feb15_utc "http://a.example/" "A".

(** The feed of [a.example] given as the target itself, and its post. *)
Definition feedURL : URL := httpURL "a.example" "/feed.xml".

Definition postDirect : Post :=
  mkPost "One" "http://a.example/1" t_feb15_utc "http://a.example/feed.xml"
         "A".

(** [utf8.RuneCountInString] on ASCII text: a rune for every byte. *)
Definition runeCountASCII (s : string) : nat := String.length s.

(** A feed of 10001 items, one more than the channel of [fetchAll] holds,
    and the host that serves it. *)
Definition manyItems : nat := Z.to_nat 10001.

Definition itemXml : string :=
  "<item><title>One</title><link>http://a.example/1</link>"
    ++ "<pubDate>Wed, 15 Feb 2023 12:00:00 GMT</pubDate></item>".

Definition bigBody : string :=
  "<rss version='2.0'><channel><title>Big</title>"
    ++ String.concat "" (repeat itemXml manyItems) ++ "</channel></rss>".

Definition bigFeed : Feed :=
  mkFeed "Big"
    (repeat (mkItem "One" "http://a.example/1" (Some t_feb15_utc) None)
            manyItems).

Definition bigURL : URL := httpURL "big.example" "/feed.xml".

Definition bigInternet (req : string) : Response :=
  lookup req [ ("http://big.example/feed.xml", DoResponse 200 (inl bigBody)) ]
         (DoError "no such host").

(** The parser on that host's bodies: the big feed is recognised by its
    title. *)
Definition bigParseString (body : string) : Feed + error :=
  if String.prefix "<rss version='2.0'><channel><title>Big</title>" body
  then inl bigFeed
  else inr ErrFeedTypeNotDetected.

(** The files: two addresses, nothing, and an address and a line that is
    none. *)
Definition feedsFile : string :=
  line "http://a.example/feed.xml" ++ line "http://b.example/feed.xml".

Definition badFile : string :=
  line "http://a.example/feed.xml" ++ line ":foo"
    ++ line "http://b.example/feed.xml".

Definition stat (name : string) : StatResult :=
  lookup name
    [ ("feeds.txt", StatOk true); ("empty.txt", StatOk true);
      ("bad.txt", StatOk true) ]
    StatNotExist.

Definition readFile (name : string) : string + string :=
  lookup name
    [ ("feeds.txt", inl feedsFile); ("empty.txt", inl EmptyString);
      ("bad.txt", inl badFile) ]
    (inr "no such file or directory").

(** Four posts, most recent first.  The third and the fourth have the same
    timestamp; they are in February where they were written and in January
    in UTC, so the second post, of January, is later than both. *)
Definition post1 : Post := postAt "http://a.example/1" t_feb15_utc.
Definition post2 : Post := postAt "http://a.example/2" t_jan31_2330_utc.
Definition post3 : Post := postAt "http://a.example/3" t_feb01_0100_plus2.
Definition post4 : Post := postAt "http://a.example/4" t_feb01_0100_plus2.

(** Three posts of one instant; the second one is shown in another zone. *)
Definition postA : Post := postAt "http://a.example/a" t_jan31_2300_utc.
Definition postB : Post := postAt "http://a.example/b" t_jan31_2300_utc.
Definition postC : Post := postAt "http://a.example/c" t_feb01_0100_plus2.

(** ** Lists

    [listSet i x l] is the assignment [l[i] = x] on an index in range. *)
Fixpoint listSet {A : Type} (i : nat) (x : A) (l : list A) : list A :=
  match i, l with
  | _, [] => []
  | O, _ :: l' => x :: l'
  | S i', y :: l' => y :: listSet i' x l'
  end.

(** [subseq s l]: the elements of [s] occur in [l], in the order of [s]. *)
Inductive subseq {A : Type} : list A -> list A -> Prop :=
| subseq_nil (l : list A) : subseq [] l
| subseq_skip (x : A) (s l : list A) : subseq s l -> subseq s (x :: l)
| subseq_take (x : A) (s l : list A) : subseq s l -> subseq (x :: s) (x :: l).

(** ** What the patterns describe

    [every cls s]: all characters of [s] are in the class.  [accepts re s
    caps rest]: [s] is a text that [re] describes, with the groups [caps],
    followed by [rest]. *)
Fixpoint every (cls : ascii -> bool) (s : string) : bool :=
  match s with
  | EmptyString => true
  | String c s' => cls c && every cls s'
  end.

Fixpoint accepts (re : Regexp.regexp) (s : string) (caps : list string)
         (rest : string) : Prop :=
  match re with
  | [] => caps = [] /\ s = rest
  | Regexp.Lit l :: re' =>
      exists s', s = (l ++ s')%string /\ accepts re' s' caps rest
  | Regexp.Star cls :: re' =>
      exists w s', s = (w ++ s')%string /\ every cls w = true
                   /\ accepts re' s' caps rest
  | Regexp.Group cls :: re' =>
      exists w s' caps', s = (w ++ s')%string /\ every cls w = true
                         /\ caps = w :: caps' /\ accepts re' s' caps' rest
  end.

(** The text of a link tag up to the closing quote of its target, as the
    patterns of [extractFeedLink] describe it. *)
Definition linkText (mime ws a b href : string) : string :=
  ws ++ "<link" ++ a ++ ("type=" ++ dquote ++ mime) ++ b
     ++ ("href=" ++ dquote) ++ href ++ dquote.





(** ** The program

    The section's variables are what the program calls and does not define. *)
Section Picofeed.

(** [t.Format(layout)] *)
Variable time_Format : Time -> string -> string.

(** [sort.Sort] on a slice of posts, given [Less]. *)
Variable sort_Sort : (Post -> Post -> bool) -> list Post -> list Post.

(** [url.Parse] (the URL, or the error's text) and [u.String()]. *)
Variable url_Parse : string -> URL + string.
Variable url_String : URL -> string.

(** One GET of the address, with the body read to its end. *)
Variable http_Do : string -> Response.

(** [gofeed.NewParser().ParseString] *)
Variable gofeed_ParseString : string -> Feed + error.

(** [os.Stat], [ioutil.ReadFile] and whether [ioutil.TempFile] succeeds. *)
Variable os_Stat : string -> StatResult.
Variable ioutil_ReadFile : string -> string + string.
Variable ioutil_TempFile : bool.

(** The flag [--web]; [--html] only chooses where the listing is written. *)
Variable web : bool.

(** [utf8.RuneCountInString], by which [fmt] measures what it pads. *)
Variable utf8_RuneCountInString : string -> nat.

(** *** Grouper/Sorter *)

(** [ByTimestamp.Less], on the two posts at the indices. *)
Definition ByTimestamp_Less (a b : Post) : bool :=
  Time_After (Timestamp a) (Timestamp b).

(** [grouped[current] = append(grouped[current], p)] with
    [current = len(grouped) - 1]. *)
Definition appendCurrent (grouped : list (list Post)) (p : Post)
  : list (list Post) :=
  removelast grouped ++ [last grouped [] ++ [p]].

(** One turn of the loop of [groupByDate], on [(grouped, lastDate)]. *)
Definition groupStep (dateFormat : string) (st : list (list Post) * string)
           (p : Post) : list (list Post) * string :=
  let date := time_Format (Timestamp p) dateFormat in
  if String.eqb date (snd st)
  then (appendCurrent (fst st) p, snd st)
  else (appendCurrent (fst st ++ [[]]) p, date).

Definition groupByDate (posts : list Post) (dateFormat : string)
  : list (list Post) :=
  fst (fold_left (groupStep dateFormat) (sort_Sort ByTimestamp_Less posts)
                 ([[]], EmptyString)).

(** The period label of a post, as the loop computes it. *)
Definition label (dateFormat : string) (p : Post) : string :=
  time_Format (Timestamp p) dateFormat.

(** The headers that [render] and [renderHtml] print: the label of the
    first post of every bucket that has one. *)
Definition bucketLabels (dateFormat : string) (grouped : list (list Post))
  : list string :=
  flat_map (fun b => match b with
                     | [] => []
                     | p :: _ => [label dateFormat p]
                     end) grouped.

(** The loop of [groupByDate] in closed form: the buckets that come out of
    a loop entered with the current bucket [cur] and [lastDate]. *)
Fixpoint chunks (dateFormat lastDate : string) (cur posts : list Post)
  : list (list Post) :=
  match posts with
  | [] => [cur]
  | p :: rest =>
      if String.eqb (label dateFormat p) lastDate
      then chunks dateFormat lastDate (cur ++ [p]) rest
      else cur :: chunks dateFormat (label dateFormat p) [p] rest
  end.

(** The order that sorting by [ByTimestamp] leaves: no post is followed by
    one that [Less] puts before it. *)
Definition notBefore (a b : Post) : Prop := ByTimestamp_Less b a = false.

(** The contract of [sort.Sort] on a strict weak order such as
    [ByTimestamp.Less]: the slice is permuted, and afterwards no element
    is [Less] than one before it. *)
Hypothesis sort_Sort_perm :
  forall l, Permutation (sort_Sort ByTimestamp_Less l) l.
Hypothesis sort_Sort_sorted :
  forall l, StronglySorted notBefore (sort_Sort ByTimestamp_Less l).

(** The instant of a post's timestamp. *)
Definition instant (p : Post) : Z := unixNano (Timestamp p).

(** *** Post Normalizer *)

(** One turn of the loop of [parseFeed]. *)
Definition parseItem (feedUrl : URL) (feed : Feed) (posts : list Post)
           (i : Item) : list Post :=
  match PublishedParsed i with
  | Some t =>
      posts ++ [mkPost (Item_Title i) (Item_Link i) t (url_String feedUrl)
                       (Feed_Title feed)]
  | None =>
      match UpdatedParsed i with
      | Some t =>
          posts ++ [mkPost (Item_Title i) (Item_Link i) t (url_String feedUrl)
                           (Feed_Title feed)]
      | None => posts
      end
  end.

Definition parseFeed (feedUrl : URL) (feed : Feed) : list Post * option error :=
  (fold_left (parseItem feedUrl feed) (Items feed) [], None).

(** *** Feed Fetcher *)

Fixpoint extractFeedLink_loop (baseUrl : URL) (contents : string)
         (res : list Regexp.regexp) : option URL :=
  match res with
  | [] => None
  | re :: rest =>
      match Regexp.FindStringSubmatch re contents with
      | _ :: m1 :: _ =>
          if strings_HasPrefix m1 "/" then Some (withPath baseUrl m1)
          else match url_Parse m1 with
               | inl u => Some u
               | inr _ => extractFeedLink_loop baseUrl contents rest
               end
      | _ => extractFeedLink_loop baseUrl contents rest
      end
  end.

Definition extractFeedLink (baseUrl : URL) (contents : string) : option URL :=
  extractFeedLink_loop baseUrl contents regexes.

(** [fetchFeed] returns the addresses it requested, in order, and its
    result; the result is [None] only when [fuel] calls were not enough. *)
Fixpoint fetchFeed (fuel : nat) (feedUrl : URL) (depth : Z)
  : list string * option (Feed + error) :=
  match fuel with
  | O => ([], None)
  | S fuel' =>
      let req := url_String feedUrl in
      match http_Do req with
      | DoError cause => ([req], Some (inr (ErrTransport cause)))
      | DoResponse status body =>
          if (status <? 200)%Z || (300 <=? status)%Z
          then ([req], Some (inr (ErrStatus status)))
          else
            match body with
            | inr cause => ([req], Some (inr (ErrReadBody cause)))
            | inl contents =>
                match gofeed_ParseString contents with
                | inr ErrFeedTypeNotDetected =>
                    if (depth =? 0)%Z then
                      match extractFeedLink feedUrl contents with
                      | None => ([req], Some (inr ErrNoFeedLink))
                      | Some newFeed =>
                          let r := fetchFeed fuel' newFeed 1 in
                          (req :: fst r, snd r)
                      end
                    else ([req], Some (inr ErrFeedTypeNotDetected))
                | r => ([req], Some r)
                end
            end
      end
  end.

(** The GET of [feedUrl] succeeds with a 2xx status and a body that the
    parser does not recognise as a feed. *)
Definition notAFeed (feedUrl : URL) (contents : string) : Prop :=
  exists status,
    http_Do (url_String feedUrl) = DoResponse status (inl contents)
    /\ (200 <= status < 300)%Z
    /\ gofeed_ParseString contents = inr ErrFeedTypeNotDetected.

(** *** Aggregator *)

(** The posts one goroutine of [fetchAll] sends, in order.  Two calls of
    [fetchFeed] are all a run can make ([fetchFeed_fuel] below). *)
Definition worker (feed : URL) : list Post :=
  match snd (fetchFeed 2 feed 0) with
  | Some (inl feedData) => fst (parseFeed feed feedData)
  | _ => []
  end.

(** The target's fetch gave a feed. *)
Definition succeeded (feed : URL) : bool :=
  match snd (fetchFeed 2 feed 0) with
  | Some (inl _) => true
  | _ => false
  end.

(** [make(chan *Post, 10000)] *)
Definition postChanCap : Z := 10000.

(** The goroutines' posts still to send, and the channel's buffer. *)
Record Chan := mkChan { sending : list (list Post); postChan : list Post }.

Fixpoint setNth (i : nat) (q : list Post) (qs : list (list Post))
  : list (list Post) :=
  match i, qs with
  | _, [] => []
  | O, _ :: qs' => q :: qs'
  | S i', q0 :: qs' => q0 :: setNth i' q qs'
  end.

(** A goroutine sends its next post; the send blocks while the buffer is
    full, and nothing reads the channel before [wg.Wait()] returns. *)
Inductive send : Chan -> Chan -> Prop :=
| send_post (st : Chan) (i : nat) (p : Post) (rest : list Post) :
    nth_error (sending st) i = Some (p :: rest) ->
    (Z.of_nat (List.length (postChan st)) < postChanCap)%Z ->
    send st (mkChan (setNth i rest (sending st)) (postChan st ++ [p])).

Definition sends : Chan -> Chan -> Prop := clos_refl_trans_1n Chan send.

Definition started (feeds : list URL) : Chan := mkChan (map worker feeds) [].

(** The posts not sent yet. *)
Definition pending (st : Chan) : list Post := List.concat (sending st).

(** [wg.Wait()] returns once every goroutine has returned. *)
Definition allDone (st : Chan) : Prop := Forall (fun q => q = []) (sending st).

(** [fetchAll(ctx, feeds)] returns [posts]. *)
Definition fetchAll (feeds : list URL) (posts : list Post) : Prop :=
  exists st, sends (started feeds) st /\ allDone st /\ posts = postChan st.

(** *** Feed Source Resolver *)

Definition nonEmpty (l : string) : bool := negb (String.eqb l EmptyString).

(** [url.Parse] accepts the line and gives the address. *)
Definition parsesTo (l : string) (u : URL) : Prop := url_Parse l = inl u.

Fixpoint parseLines (lines : list string) (urls : list URL)
  : list URL + error :=
  match lines with
  | [] => inl urls
  | l :: rest =>
      if String.eqb l EmptyString then parseLines rest urls
      else match url_Parse l with
           | inr cause => inr (ErrUrlParse l cause)
           | inl u => parseLines rest (urls ++ [u])
           end
  end.

Definition parseFeedArg (feed : string) : list URL + error :=
  let asUrl :=
    match url_Parse feed with
    | inr cause => inr (ErrNotFileUrlParse feed cause)
    | inl u => inl [u]
    end in
  match os_Stat feed with
  | StatNotExist => asUrl
  | StatOk false => asUrl
  | _ =>
      match ioutil_ReadFile feed with
      | inr cause => inr (ErrReadFile feed cause)
      | inl contents => parseLines (strings_Split contents newline) []
      end
  end.

(** *** main *)

(** The loop of [main] over the arguments. *)
Fixpoint parseFeedArgs (feedsList : list string) (feeds : list URL)
  : list URL + (string * error) :=
  match feedsList with
  | [] => inl feeds
  | f :: rest =>
      match parseFeedArg f with
      | inr err => inr (f, err)
      | inl newFeeds => parseFeedArgs rest (feeds ++ newFeeds)
      end
  end.

(** How a run of [main] ends. *)
Inductive Outcome :=
| NoFeedProvided
| Version
| BadArgument (f : string) (err : error)
| TempFileFailed
| Rendered (grouped : list (list Post)).

Definition exitCode (o : Outcome) : Z :=
  match o with
  | NoFeedProvided | BadArgument _ _ | TempFileFailed => 1
  | Version | Rendered _ => 0
  end.

Inductive main : list string -> Outcome -> Prop :=
| main_no_feed : main [] NoFeedProvided
| main_version (rest : list string) : main ("version" :: rest) Version
| main_bad_argument (feedsList : list string) (f : string) (err : error) :
    feedsList <> [] -> hd EmptyString feedsList <> "version" ->
    parseFeedArgs feedsList [] = inr (f, err) ->
    main feedsList (BadArgument f err)
| main_temp_file (feedsList : list string) (feeds : list URL)
                 (posts : list Post) :
    feedsList <> [] -> hd EmptyString feedsList <> "version" ->
    parseFeedArgs feedsList [] = inl feeds ->
    fetchAll feeds posts ->
    web = true -> ioutil_TempFile = false ->
    main feedsList TempFileFailed
| main_render (feedsList : list string) (feeds : list URL)
              (posts : list Post) :
    feedsList <> [] -> hd EmptyString feedsList <> "version" ->
    parseFeedArgs feedsList [] = inl feeds ->
    fetchAll feeds posts ->
    (web = true -> ioutil_TempFile = true) ->
    main feedsList (Rendered (groupByDate posts "Jan 2006")).


(** *** sort.Interface

    [Posts.Len] and [Posts.Swap], as [sort.Sort] calls them; [None] is
    the panic of an index out of range. *)
Definition Posts_Len (posts : list Post) : Z := Z.of_nat (List.length posts).

Definition inRange (posts : list Post) (i : Z) : bool :=
  (0 <=? i)%Z && (i <? Posts_Len posts)%Z.

Definition Posts_Swap (posts : list Post) (i j : Z) : option (list Post) :=
  if inRange posts i && inRange posts j then
    match nth_error posts (Z.to_nat i), nth_error posts (Z.to_nat j) with
    | Some a, Some b =>
        Some (listSet (Z.to_nat j) a (listSet (Z.to_nat i) b posts))
    | _, _ => None
    end
  else None.

(** The item has a time that [parseFeed] can use. *)
Definition hasTime (i : Item) : bool :=
  match PublishedParsed i, UpdatedParsed i with
  | None, None => false
  | _, _ => true
  end.

(** The address answers with a 2xx status and a body that the parser
    reads as [feed]. *)
Definition servesFeed (address : string) (feed : Feed) : Prop :=
  exists status contents,
    http_Do address = DoResponse status (inl contents)
    /\ (200 <= status < 300)%Z
    /\ gofeed_ParseString contents = inl feed.

(** The goroutines named by [order] send all their posts, one goroutine
    after the other: the queues left and the posts sent. *)
Definition drained (order : list nat) (qs : list (list Post))
  : list (list Post) :=
  fold_left (fun qs' i => setNth i [] qs') order qs.

Definition sentInOrder (order : list nat) (qs : list (list Post)) : list Post :=
  flat_map (fun i => nth i qs []) order.

(** *** Rendering

    [render] and [renderHtml] as the list of what their [Printf] and
    [Fprintf] calls write, in order. *)
Fixpoint spaces (n : nat) : string :=
  match n with
  | O => EmptyString
  | S n' => String " " (spaces n')
  end.

Definition endl : string := String newline EmptyString.

Definition tab : string := String "009"%char EmptyString.

Definition longTitle (p : Post) : bool := (70 <? String.length (Title p))%nat.

(** The body of the inner loop of [render]: the title on a line of its
    own when it is longer than 70 bytes, else padded to 70 runes. *)
Definition renderPost (p : Post) : list string :=
  if longTitle p
  then [ ("    " ++ Title p ++ endl)%string;
         ("    " ++ spaces 70 ++ " " ++ Link p ++ endl)%string ]
  else [ ("    " ++ Title p
            ++ spaces (70 - utf8_RuneCountInString (Title p))
            ++ " " ++ Link p ++ endl)%string ].

(** [for i, p := range group]: the header when [i == 0], then the post. *)
Fixpoint renderGroup (dateFormat : string) (i : nat) (group : list Post)
  : list string :=
  match group with
  | [] => []
  | p :: rest =>
      (if Nat.eqb i 0 then [(label dateFormat p ++ endl)%string] else [])
        ++ renderPost p ++ renderGroup dateFormat (S i) rest
  end.

Definition render (posts : list Post) (dateFormat : string) : list string :=
  flat_map (renderGroup dateFormat 0) (groupByDate posts dateFormat).

(** [p.shortFeedLink()] *)
Definition shortFeedLink (p : Post) : string :=
  match url_Parse (FeedLink p) with
  | inr _ => EmptyString
  | inl u => Host u
  end.

Definition htmlHead : string :=
  line "<!DOCTYPE html>" ++ line "<head>" ++ line "<style>" ++ line "body {"
    ++ line (tab ++ "margin: 0 auto;")
    ++ line (tab ++ "padding: 2em 0px;")
    ++ line (tab ++ "max-width: 800px;")
    ++ line (tab ++ "color: #888;")
    ++ line (tab ++ "font-family: -apple-system,system-ui,BlinkMacSystemFont,"
                 ++ quoted "Segoe UI" ++ ",Roboto," ++ quoted "Helvetica Neue"
                 ++ ",Arial,sans-serif;")
    ++ line (tab ++ "font-size: 14px;")
    ++ line (tab ++ "line-height: 1.4em;")
    ++ line "}" ++ line "h4   {color: #000;}" ++ line "a {color: #000;}"
    ++ line "a:visited {color: #888;}" ++ line "</style>" ++ line "</head>"
    ++ line "<body>"
    ++ line ("<h4 style=" ++ quoted "padding-bottom: 2em" ++ ">Picofeed</h4>").

Definition htmlFoot : string := line "</body>" ++ line "</html>".

Definition htmlPost (p : Post) : string :=
  "<div><a href=" ++ quoted (Link p) ++ ">" ++ Title p ++ "</a> ("
    ++ shortFeedLink p ++ ")</div>" ++ endl.

Fixpoint renderHtmlGroup (dateFormat : string) (i : nat) (group : list Post)
  : list string :=
  match group with
  | [] => []
  | p :: rest =>
      (if Nat.eqb i 0
       then [("<h4>" ++ label dateFormat p ++ "</h4>" ++ endl)%string]
       else [])
        ++ htmlPost p :: renderHtmlGroup dateFormat (S i) rest
  end.

Definition renderHtml (posts : list Post) (dateFormat : string) : list string :=
  htmlHead
    :: flat_map (renderHtmlGroup dateFormat 0) (groupByDate posts dateFormat)
    ++ [htmlFoot].

(** ** Properties *)

(** *** The grouping loop *)

Lemma appendCurrent_last (g : list (list Post)) (cur : list Post) (p : Post) :
  appendCurrent (g ++ [cur]) p = g ++ [cur ++ [p]].
Proof.
  unfold appendCurrent. now rewrite removelast_last, last_last.
Qed.

Lemma groupLoop_chunks (df : string) (l : list Post) :
  forall g cur d,
    fst (fold_left (groupStep df) l (g ++ [cur], d)) = g ++ chunks df d cur l.
Proof.
  induction l as [|p l IH]; intros g cur d; simpl; [reflexivity|].
  unfold groupStep at 2; simpl. fold (label df p).
  destruct (String.eqb (label df p) d).
  - rewrite appendCurrent_last. apply IH.
  - rewrite appendCurrent_last. simpl.
    rewrite (IH (g ++ [cur]) [p]). now rewrite <- app_assoc.
Qed.

Lemma groupByDate_chunks (posts : list Post) (df : string) :
  groupByDate posts df
  = chunks df EmptyString [] (sort_Sort ByTimestamp_Less posts).
Proof.
  unfold groupByDate. apply (groupLoop_chunks df _ [] [] EmptyString).
Qed.

Lemma chunks_concat (df : string) (l : list Post) :
  forall d cur, List.concat (chunks df d cur l) = cur ++ l.
Proof.
  induction l as [|p l IH]; intros d cur; simpl.
  - now rewrite app_nil_r.
  - destruct (String.eqb (label df p) d); simpl; rewrite IH.
    + now rewrite <- app_assoc.
    + reflexivity.
Qed.

Lemma chunks_head (df : string) (l : list Post) :
  forall d cur, exists more rest, chunks df d cur l = (cur ++ more) :: rest.
Proof.
  induction l as [|p l IH]; intros d cur; simpl.
  - exists [], []. now rewrite app_nil_r.
  - destruct (String.eqb (label df p) d).
    + destruct (IH d (cur ++ [p])) as (more & rest & E).
      exists (p :: more), rest. rewrite E. now rewrite <- app_assoc.
    + exists [], (chunks df (label df p) [p] l). now rewrite app_nil_r.
Qed.

Lemma chunks_tail_nonempty (df : string) (l : list Post) :
  forall d cur, Forall (fun b => b <> []) (tl (chunks df d cur l)).
Proof.
  induction l as [|p l IH]; intros d cur; simpl; [constructor|].
  destruct (String.eqb (label df p) d); [apply IH|]. simpl.
  specialize (IH (label df p) [p]).
  destruct (chunks_head df l (label df p) [p]) as (more & rest & E).
  rewrite E in *. constructor; [discriminate | exact IH].
Qed.

Lemma chunks_uniform (df : string) (l : list Post) :
  forall d cur,
    Forall (fun p => label df p = d) cur ->
    Forall (fun b => forall p q, In p b -> In q b -> label df p = label df q)
           (chunks df d cur l).
Proof.
  induction l as [|p l IH]; intros d cur Hcur; simpl.
  - constructor; [|constructor]. intros x y Hx Hy.
    rewrite Forall_forall in Hcur. now rewrite (Hcur x Hx), (Hcur y Hy).
  - destruct (String.eqb_spec (label df p) d) as [E|NE].
    + apply IH. apply Forall_app. split; [exact Hcur|]. now constructor.
    + constructor.
      * intros x y Hx Hy. rewrite Forall_forall in Hcur.
        now rewrite (Hcur x Hx), (Hcur y Hy).
      * apply IH. now constructor.
Qed.

(** The labels of the buckets, read through a ranking [period] of the
    labels that the posts respect: consecutive labels differ, and the
    rank does not grow. *)
Lemma chunks_labels (df : string) (period : string -> Z) (l : list Post) :
  forall d cur,
    Forall (fun p => label df p = d) cur ->
    StronglySorted
      (fun p q => (period (label df q) <= period (label df p))%Z) l ->
    (cur <> [] -> Forall (fun q => (period (label df q) <= period d)%Z) l) ->
    Sorted (fun x y => x <> y /\ (period y <= period x)%Z)
           (bucketLabels df (chunks df d cur l)).
Proof.
  induction l as [|p l IH]; intros d cur Hcur Hl Hbound; simpl.
  - destruct cur; simpl; repeat constructor.
  - apply StronglySorted_inv in Hl. destruct Hl as [Hl Hp].
    destruct (String.eqb_spec (label df p) d) as [E|NE].
    + apply IH; trivial.
      * apply Forall_app. split; [exact Hcur|]. now constructor.
      * intros _. subst d. exact Hp.
    + assert (IH' := IH (label df p) [p]
                        (Forall_cons _ eq_refl (Forall_nil _)) Hl
                        (fun _ => Hp)).
      destruct (chunks_head df l (label df p) [p]) as (more & rest & E).
      rewrite E in *. simpl in IH'. simpl.
      destruct cur as [|c cur']; simpl; [exact IH'|].
      constructor; [exact IH'|]. constructor. split.
      * inversion Hcur; subst. congruence.
      * assert (Hb := Hbound ltac:(discriminate)).
        inversion Hb; subst. inversion Hcur; subst. assumption.
Qed.

Lemma chunks_run (df : string) (l2 m : list Post) :
  forall d cur,
    Forall (fun p => label df p = d) m ->
    exists more rest, chunks df d cur (m ++ l2) = (cur ++ m ++ more) :: rest.
Proof.
  induction m as [|q m IH]; intros d cur Hm; simpl.
  - apply chunks_head.
  - inversion Hm as [|? ? Hq Hm']; subst.
    rewrite String.eqb_refl.
    destruct (IH (label df q) (cur ++ [q]) Hm') as (more & rest & E).
    exists more, rest. rewrite E. now rewrite <- app_assoc.
Qed.

(** A run of posts with one label ends up in one bucket. *)
Lemma chunks_segment (df L : string) (mid l2 l1 : list Post) :
  forall d cur,
    Forall (fun p => label df p = L) mid ->
    exists b, In b (chunks df d cur (l1 ++ mid ++ l2)) /\ incl mid b.
Proof.
  induction l1 as [|x l1 IH]; intros d cur Hmid.
  - simpl. destruct mid as [|p mid'].
    + destruct (chunks_head df ([] ++ l2) d cur) as (more & rest & E).
      rewrite E. eexists. split; [now left|]. intros x [].
    + inversion Hmid as [|? ? Hp Hmid']; subst. simpl.
      destruct (String.eqb_spec (label df p) d) as [E|NE].
      * subst d.
        destruct (chunks_run df l2 mid' (label df p) (cur ++ [p]) Hmid')
          as (more & rest & E).
        rewrite E. eexists. split; [now left|].
        intros y Hy. rewrite <- app_assoc. apply in_or_app. right.
        simpl. destruct Hy as [->|Hy]; [now left|right].
        apply in_or_app. now left.
      * destruct (chunks_run df l2 mid' (label df p) [p] Hmid')
          as (more & rest & E).
        rewrite E. eexists. split; [right; now left|].
        intros y Hy. simpl. destruct Hy as [->|Hy]; [now left|right].
        apply in_or_app. now left.
  - simpl. destruct (String.eqb (label df x) d).
    + apply IH, Hmid.
    + destruct (IH (label df x) [x] Hmid) as (b & Hb & Hi).
      exists b. split; [now right | exact Hi].
Qed.

(** *** Sorted slices *)

Lemma notBefore_instant (a b : Post) :
  notBefore a b <-> (instant b <= instant a)%Z.
Proof.
  unfold notBefore, ByTimestamp_Less, Time_After, instant.
  rewrite Z.ltb_ge. reflexivity.
Qed.

Lemma filter_none {A : Type} (f : A -> bool) (l : list A) :
  Forall (fun x => f x = false) l -> filter f l = [].
Proof.
  induction 1 as [|x l Hx _ IH]; simpl; [reflexivity|]. now rewrite Hx.
Qed.

Lemma filter_all {A : Type} (f : A -> bool) (l : list A) :
  Forall (fun x => f x = true) l -> filter f l = l.
Proof.
  induction 1 as [|x l Hx _ IH]; simpl; [reflexivity|]. now rewrite Hx, IH.
Qed.

(** A sorted slice is its posts after [t], then those at [t], then those
    before [t]. *)
Lemma sorted_split (t : Z) (s : list Post) :
  StronglySorted notBefore s ->
  s = filter (fun p => (t <? instant p)%Z) s
      ++ filter (fun p => (instant p =? t)%Z) s
      ++ filter (fun p => (instant p <? t)%Z) s.
Proof.
  induction 1 as [|x s Hs IH Hx]; simpl; [reflexivity|].
  assert (Hle : forall y, In y s -> (instant y <= instant x)%Z).
  { rewrite Forall_forall in Hx. intros y Hy. now apply notBefore_instant, Hx. }
  destruct (Z.ltb_spec t (instant x)) as [Hgt|Hle'].
  - replace (instant x =? t)%Z with false by (symmetry; apply Z.eqb_neq; lia).
    replace (instant x <? t)%Z with false by (symmetry; apply Z.ltb_ge; lia).
    simpl. now rewrite <- IH.
  - assert (Hnone : filter (fun p => (t <? instant p)%Z) s = []).
    { apply filter_none, Forall_forall. intros y Hy.
      apply Z.ltb_ge. specialize (Hle y Hy). lia. }
    rewrite Hnone in *. simpl in *.
    destruct (Z.eqb_spec (instant x) t) as [Heq|Hne].
    + replace (instant x <? t)%Z with false by (symmetry; apply Z.ltb_ge; lia).
      simpl. now rewrite <- IH.
    + replace (instant x <? t)%Z with true by (symmetry; apply Z.ltb_lt; lia).
      rewrite (filter_none (fun p => (instant p =? t)%Z) s).
      * simpl. f_equal. symmetry. apply filter_all, Forall_forall.
        intros y Hy. apply Z.ltb_lt. specialize (Hle y Hy). lia.
      * apply Forall_forall. intros y Hy.
        apply Z.eqb_neq. specialize (Hle y Hy). lia.
Qed.

Lemma StronglySorted_suffix {A : Type} (R : A -> A -> Prop) (l1 l2 : list A) :
  StronglySorted R (l1 ++ l2) -> StronglySorted R l2.
Proof.
  induction l1 as [|x l1 IH]; simpl; [trivial|].
  intros H. apply StronglySorted_inv in H. now apply IH.
Qed.

(** In a sorted slice, a post that [Less] puts before another one comes
    first. *)
Lemma sorted_before (s : list Post) (a b : Post) :
  StronglySorted notBefore s -> In a s -> In b s ->
  ByTimestamp_Less a b = true ->
  exists l1 l2 l3, s = l1 ++ a :: l2 ++ b :: l3.
Proof.
  intros Hs Ha Hb Hlt.
  assert (Hab : a <> b).
  { intros ->. unfold ByTimestamp_Less, Time_After in Hlt.
    rewrite Z.ltb_irrefl in Hlt. discriminate. }
  destruct (in_split _ _ Ha) as (l1 & r & ->).
  apply in_app_or in Hb. destruct Hb as [Hb|[Hb|Hb]].
  - exfalso. destruct (in_split _ _ Hb) as (x & y & ->).
    rewrite <- app_assoc in Hs. simpl in Hs.
    apply StronglySorted_suffix in Hs.
    apply StronglySorted_inv in Hs. destruct Hs as [_ Hs].
    rewrite Forall_forall in Hs.
    assert (Hn : notBefore b a) by (apply Hs, in_or_app; right; now left).
    unfold notBefore in Hn. congruence.
  - contradiction.
  - destruct (in_split _ _ Hb) as (l2 & l3 & ->). now exists l1, l2, l3.
Qed.

(** *** Grouper/Sorter *)

Lemma sort_Sort_nil : sort_Sort ByTimestamp_Less [] = [].
Proof. apply Permutation_nil, Permutation_sym, sort_Sort_perm. Qed.

Lemma groupByDate_concat (posts : list Post) (df : string) :
  List.concat (groupByDate posts df) = sort_Sort ByTimestamp_Less posts.
Proof. rewrite groupByDate_chunks. apply chunks_concat. Qed.

Lemma groupByDate_nil (df : string) : groupByDate [] df = [[]].
Proof. rewrite groupByDate_chunks, sort_Sort_nil. reflexivity. Qed.

(** C3, as the code has it: on the empty collection [groupByDate] returns
    one bucket, the empty one it starts with, and not zero buckets; on
    every collection the result is that first bucket followed by buckets
    that are all non-empty, and the first bucket stays empty when no post
    has the empty string as its label. *)
Theorem groupByDate_buckets (dateFormat : string) :
  groupByDate [] dateFormat = [[]]
  /\ forall posts, exists first rest,
       groupByDate posts dateFormat = first :: rest
       /\ Forall (fun bucket => bucket <> []) rest
       /\ ((forall p, In p posts -> label dateFormat p <> EmptyString) ->
           first = []).
Proof.
  split.
  - apply groupByDate_nil.
  - intros posts. rewrite groupByDate_chunks.
    assert (Hin : forall p, In p (sort_Sort ByTimestamp_Less posts) ->
                            In p posts).
    { intros p. apply Permutation_in, sort_Sort_perm. }
    revert Hin. generalize (sort_Sort ByTimestamp_Less posts). intros s Hin.
    assert (Htl := chunks_tail_nonempty dateFormat s EmptyString []).
    destruct (chunks_head dateFormat s EmptyString []) as (more & rest & E).
    rewrite E in *. exists ([] ++ more), rest. repeat split; trivial.
    intros Hlabel. destruct s as [|p s]; simpl in E.
    + now inversion E.
    + destruct (String.eqb_spec (label dateFormat p) EmptyString) as [Ep|_].
      * exfalso. apply (Hlabel p); [apply Hin; now left | exact Ep].
      * now inversion E.
Qed.

(** C4, as the code has it.  [Less] holds of two posts iff the first one's
    timestamp is strictly after the second one's.  The output, read bucket
    after bucket, is the input sorted by [Less]: a permutation in which no
    post is followed by one with a strictly later timestamp, so a post
    strictly after another one comes before it (posts with equal
    timestamps come in either order).  Consecutive bucket labels differ;
    they are strictly decreasing in every ranking of the labels that the
    timestamps respect (one cannot be had when posts of different zones
    interleave).  Within a bucket all posts have the same label, the one
    printed for the bucket. *)
Theorem groupByDate_order (posts : list Post) (dateFormat : string) :
  let grouped := groupByDate posts dateFormat in
  (forall a b, ByTimestamp_Less a b = true
               <-> (unixNano (Timestamp b) < unixNano (Timestamp a))%Z)
  /\ Permutation (List.concat grouped) posts
  /\ StronglySorted
       (fun a b => (unixNano (Timestamp b) <= unixNano (Timestamp a))%Z)
       (List.concat grouped)
  /\ (forall a b, In a posts -> In b posts ->
        (unixNano (Timestamp b) < unixNano (Timestamp a))%Z ->
        exists l1 l2 l3, List.concat grouped = l1 ++ a :: l2 ++ b :: l3)
  /\ Sorted (fun x y => x <> y) (bucketLabels dateFormat grouped)
  /\ (forall period : string -> Z,
        (forall p q, In p posts -> In q posts ->
           (unixNano (Timestamp q) <= unixNano (Timestamp p))%Z ->
           (period (label dateFormat q) <= period (label dateFormat p))%Z) ->
        (forall p q, In p posts -> In q posts ->
           period (label dateFormat p) = period (label dateFormat q) ->
           label dateFormat p = label dateFormat q) ->
        StronglySorted (fun x y => (period y < period x)%Z)
                       (bucketLabels dateFormat grouped))
  /\ (forall bucket p q, In bucket grouped -> In p bucket -> In q bucket ->
        label dateFormat p = label dateFormat q).
Proof.
  intros grouped.
  assert (Hless : forall a b, ByTimestamp_Less a b = true
               <-> (unixNano (Timestamp b) < unixNano (Timestamp a))%Z).
  { intros a b. unfold ByTimestamp_Less, Time_After. apply Z.ltb_lt. }
  assert (Hconcat : List.concat grouped = sort_Sort ByTimestamp_Less posts)
    by apply groupByDate_concat.
  assert (Hsorted := sort_Sort_sorted posts).
  assert (Hperm := sort_Sort_perm posts).
  assert (Hin : forall p, In p (sort_Sort ByTimestamp_Less posts) ->
                          In p posts).
  { intros p. now apply Permutation_in. }
  assert (Hin' : forall p, In p posts ->
                           In p (sort_Sort ByTimestamp_Less posts)).
  { intros p. now apply Permutation_in, Permutation_sym. }
  assert (Hlabels : forall period : string -> Z,
        (forall p q, In p posts -> In q posts ->
           (unixNano (Timestamp q) <= unixNano (Timestamp p))%Z ->
           (period (label dateFormat q) <= period (label dateFormat p))%Z) ->
        Sorted (fun x y => x <> y /\ (period y <= period x)%Z)
               (bucketLabels dateFormat grouped)).
  { intros period Hmono. unfold grouped. rewrite groupByDate_chunks.
    apply chunks_labels; [constructor | | congruence].
    revert Hsorted Hin. generalize (sort_Sort ByTimestamp_Less posts).
    induction 1 as [|x s Hs IH Hx]; intros Hin0; constructor.
    - apply IH. intros p Hp. apply Hin0. now right.
    - rewrite Forall_forall in *. intros y Hy.
      apply Hmono; [apply Hin0; now left | apply Hin0; now right |].
      now apply notBefore_instant, Hx. }
  repeat split.
  - apply Hless.
  - apply Hless.
  - now rewrite Hconcat.
  - rewrite Hconcat. clear -Hsorted.
    induction Hsorted as [|x s Hs IH Hx]; constructor; trivial.
    eapply Forall_impl; [|exact Hx]. intros y. apply notBefore_instant.
  - intros a b Ha Hb Hlt. rewrite Hconcat.
    apply sorted_before; auto. now apply Hless.
  - specialize (Hlabels (fun _ => 0%Z) ltac:(intros; cbv beta; lia)).
    revert Hlabels. generalize (bucketLabels dateFormat grouped).
    induction 1 as [|x l Hl IH Hx]; constructor; trivial.
    destruct Hx as [|y l' [Hxy _]]; constructor; trivial.
  - intros period Hmono Hinj.
    assert (Hb : forall x, In x (bucketLabels dateFormat grouped) ->
                           exists p, In p posts /\ x = label dateFormat p).
    { intros x Hx. unfold bucketLabels in Hx. apply in_flat_map in Hx.
      destruct Hx as (b & Hb & Hx). destruct b as [|p b]; [contradiction|].
      destruct Hx as [<-|[]]. exists p. split; [|reflexivity].
      apply Hin. rewrite <- Hconcat. apply in_concat.
      exists (p :: b). split; [exact Hb | now left]. }
    specialize (Hlabels period Hmono). revert Hlabels Hb.
    generalize (bucketLabels dateFormat grouped). intros l Hl Hb.
    apply Sorted_StronglySorted; [intros x y z; lia|].
    induction Hl as [|x l Hl IH Hx]; constructor.
    + apply IH. intros y Hy. apply Hb. now right.
    + destruct Hx as [|y l' [Hxy Hle]]; constructor.
      destruct (Hb x (or_introl eq_refl)) as (p & Hp & ->).
      destruct (Hb y (or_intror (or_introl eq_refl))) as (q & Hq & ->).
      assert (period (label dateFormat p) <> period (label dateFormat q)).
      { intros E. apply Hxy. now apply Hinj. }
      lia.
  - intros bucket p q Hbucket.
    assert (Hu := chunks_uniform dateFormat
                    (sort_Sort ByTimestamp_Less posts) EmptyString []
                    (Forall_nil _)).
    rewrite Forall_forall in Hu. apply Hu.
    unfold grouped in Hbucket. now rewrite groupByDate_chunks in Hbucket.
Qed.

(** C9, as the code has it.  No post is dropped: the buckets hold the
    input's posts, each as often as the input does.  Two posts with the
    same timestamp are put in one bucket provided the posts of the
    collection at that instant all carry their label (as they do when the
    timestamps are in one zone): a post of the same instant shown in
    another zone may sort between the two and open a bucket of its own. *)
Theorem groupByDate_same_timestamp
        (posts : list Post) (dateFormat : string) (a b : Post) :
  In a posts -> In b posts ->
  Timestamp a = Timestamp b -> Link a <> Link b ->
  (forall p, In p posts -> unixNano (Timestamp p) = unixNano (Timestamp a) ->
             label dateFormat p = label dateFormat a) ->
  Permutation (List.concat (groupByDate posts dateFormat)) posts
  /\ exists bucket, In bucket (groupByDate posts dateFormat)
                    /\ In a bucket /\ In b bucket.
Proof.
  intros Ha Hb Hts _ Hsame. split.
  - rewrite groupByDate_concat. apply sort_Sort_perm.
  - rewrite groupByDate_chunks.
    assert (Hsorted := sort_Sort_sorted posts).
    assert (Hperm := sort_Sort_perm posts).
    set (s := sort_Sort ByTimestamp_Less posts) in *.
    set (t := instant a).
    rewrite (sorted_split t s Hsorted).
    set (mid := filter (fun p => (instant p =? t)%Z) s).
    destruct (chunks_segment dateFormat (label dateFormat a) mid
                (filter (fun p => (instant p <? t)%Z) s)
                (filter (fun p => (t <? instant p)%Z) s)
                EmptyString []) as (bucket & Hbucket & Hincl).
    + apply Forall_forall. intros p Hp. apply filter_In in Hp.
      destruct Hp as [Hp Ht]. apply Hsame.
      * eapply Permutation_in; eassumption.
      * apply Z.eqb_eq in Ht. exact Ht.
    + exists bucket. split; [exact Hbucket|].
      split; apply Hincl, filter_In; split.
      * eapply Permutation_in; [apply Permutation_sym|]; eassumption.
      * apply Z.eqb_refl.
      * eapply Permutation_in; [apply Permutation_sym|]; eassumption.
      * apply Z.eqb_eq. unfold t, instant. now rewrite Hts.
Qed.

(** *** Post Normalizer *)

Lemma parseItem_app (feedUrl : URL) (feed : Feed) (posts : list Post) (i : Item) :
  parseItem feedUrl feed posts i = posts ++ parseItem feedUrl feed [] i.
Proof.
  unfold parseItem.
  destruct (PublishedParsed i); [reflexivity|].
  destruct (UpdatedParsed i); [reflexivity|]. now rewrite app_nil_r.
Qed.

Lemma parseFeed_loop (feedUrl : URL) (feed : Feed) (items : list Item) :
  forall posts,
    fold_left (parseItem feedUrl feed) items posts
    = posts ++ flat_map (parseItem feedUrl feed []) items.
Proof.
  induction items as [|i items IH]; intros posts; simpl.
  - now rewrite app_nil_r.
  - rewrite IH, (parseItem_app feedUrl feed posts i). now rewrite <- app_assoc.
Qed.

(** C5: [parseFeed] never fails, and its posts are those of the items, in
    the items' order, where an item gives one post with the published
    time when it has one, else one post with the updated time when it has
    one, and no post when it has neither. *)
Theorem parseFeed_timestamp (feedUrl : URL) (feed : Feed) :
  snd (parseFeed feedUrl feed) = None
  /\ fst (parseFeed feedUrl feed)
     = flat_map (parseItem feedUrl feed []) (Items feed)
  /\ forall i : Item,
       match PublishedParsed i, UpdatedParsed i with
       | Some published, _ =>
           parseItem feedUrl feed [] i
           = [mkPost (Item_Title i) (Item_Link i) published
                     (url_String feedUrl) (Feed_Title feed)]
       | None, Some updated =>
           parseItem feedUrl feed [] i
           = [mkPost (Item_Title i) (Item_Link i) updated
                     (url_String feedUrl) (Feed_Title feed)]
       | None, None => parseItem feedUrl feed [] i = []
       end.
Proof.
  split; [reflexivity|]. split.
  - unfold parseFeed. simpl. apply parseFeed_loop.
  - intros i. unfold parseItem.
    destruct (PublishedParsed i); [reflexivity|].
    destruct (UpdatedParsed i); reflexivity.
Qed.

Lemma parseFeed_FeedLink (feedUrl : URL) (feed : Feed) (p : Post) :
  In p (fst (parseFeed feedUrl feed)) -> FeedLink p = url_String feedUrl.
Proof.
  unfold parseFeed. simpl. rewrite parseFeed_loop. simpl.
  intros Hp. apply in_flat_map in Hp. destruct Hp as (i & _ & Hp).
  unfold parseItem in Hp.
  destruct (PublishedParsed i); [|destruct (UpdatedParsed i)];
    simpl in Hp; try contradiction;
    destruct Hp as [Hp|Hp]; try contradiction; now rewrite <- Hp.
Qed.

(** *** Feed Fetcher *)

(** A call at a depth other than 0 makes one request and does not call
    itself. *)
Lemma fetchFeed_deep (n : nat) (feedUrl : URL) (depth : Z) :
  depth <> 0%Z ->
  fetchFeed (S n) feedUrl depth = fetchFeed 1 feedUrl depth
  /\ fst (fetchFeed (S n) feedUrl depth) = [url_String feedUrl]
  /\ snd (fetchFeed (S n) feedUrl depth) <> None.
Proof.
  intros Hd. apply Z.eqb_neq in Hd. simpl. rewrite Hd.
  destruct (http_Do (url_String feedUrl)) as [cause|status body].
  { repeat split; discriminate. }
  destruct ((status <? 200)%Z || (300 <=? status)%Z).
  { repeat split; discriminate. }
  destruct body as [contents|cause]; [|repeat split; discriminate].
  destruct (gofeed_ParseString contents) as [feed|[]];
    repeat split; discriminate.
Qed.

Lemma fetchFeed_notAFeed_deep (n : nat) (feedUrl : URL) (depth : Z)
      (contents : string) :
  depth <> 0%Z -> notAFeed feedUrl contents ->
  fetchFeed (S n) feedUrl depth
  = ([url_String feedUrl], Some (inr ErrFeedTypeNotDetected)).
Proof.
  intros Hd (status & Hdo & Hstatus & Hparse). apply Z.eqb_neq in Hd.
  simpl. rewrite Hdo, Hparse, Hd.
  replace ((status <? 200)%Z || (300 <=? status)%Z) with false; [reflexivity|].
  symmetry. apply orb_false_iff. split; [apply Z.ltb_ge|apply Z.leb_gt]; lia.
Qed.

Lemma fetchFeed_notAFeed_top (n : nat) (feedUrl : URL) (contents : string) :
  notAFeed feedUrl contents ->
  fetchFeed (S (S n)) feedUrl 0
  = match extractFeedLink feedUrl contents with
    | None => ([url_String feedUrl], Some (inr ErrNoFeedLink))
    | Some newFeed =>
        (url_String feedUrl :: fst (fetchFeed (S n) newFeed 1),
         snd (fetchFeed (S n) newFeed 1))
    end.
Proof.
  intros (status & Hdo & Hstatus & Hparse).
  cbn [fetchFeed]. rewrite Hdo, Hparse.
  replace ((status <? 200)%Z || (300 <=? status)%Z) with false.
  - simpl. destruct (extractFeedLink feedUrl contents); reflexivity.
  - symmetry. apply orb_false_iff. split; [apply Z.ltb_ge|apply Z.leb_gt]; lia.
Qed.

Lemma fetchFeed_unfold (fuel : nat) (feedUrl : URL) (depth : Z) :
  fetchFeed (S fuel) feedUrl depth
  = match http_Do (url_String feedUrl) with
    | DoError cause => ([url_String feedUrl], Some (inr (ErrTransport cause)))
    | DoResponse status body =>
        if (status <? 200)%Z || (300 <=? status)%Z
        then ([url_String feedUrl], Some (inr (ErrStatus status)))
        else
          match body with
          | inr cause => ([url_String feedUrl], Some (inr (ErrReadBody cause)))
          | inl contents =>
              match gofeed_ParseString contents with
              | inr ErrFeedTypeNotDetected =>
                  if (depth =? 0)%Z then
                    match extractFeedLink feedUrl contents with
                    | None => ([url_String feedUrl], Some (inr ErrNoFeedLink))
                    | Some newFeed =>
                        (url_String feedUrl :: fst (fetchFeed fuel newFeed 1),
                         snd (fetchFeed fuel newFeed 1))
                    end
                  else ([url_String feedUrl], Some (inr ErrFeedTypeNotDetected))
              | r => ([url_String feedUrl], Some r)
              end
          end
    end.
Proof. reflexivity. Qed.

(** Two calls are all that [fetchFeed] makes: more fuel changes nothing. *)
Lemma fetchFeed_fuel (n : nat) (feedUrl : URL) :
  fetchFeed (S (S n)) feedUrl 0 = fetchFeed 2 feedUrl 0
  /\ snd (fetchFeed (S (S n)) feedUrl 0) <> None
  /\ (List.length (fst (fetchFeed (S (S n)) feedUrl 0)) <= 2)%nat.
Proof.
  assert (Hdeep := fun u => fetchFeed_deep n u 1 ltac:(discriminate)).
  rewrite (fetchFeed_unfold (S n) feedUrl 0), (fetchFeed_unfold 1 feedUrl 0).
  destruct (http_Do (url_String feedUrl)) as [cause|status body].
  { repeat split; simpl; try discriminate; lia. }
  destruct ((status <? 200)%Z || (300 <=? status)%Z).
  { repeat split; simpl; try discriminate; lia. }
  destruct body as [contents|cause];
    [|repeat split; simpl; try discriminate; lia].
  destruct (gofeed_ParseString contents) as [feed|[]];
    try (repeat split; simpl; try discriminate; lia).
  change (0 =? 0)%Z with true. cbv iota.
  destruct (extractFeedLink feedUrl contents) as [newFeed|];
    [|repeat split; simpl; try discriminate; lia].
  destruct (Hdeep newFeed) as (E & Hreq & Hres).
  rewrite E in *. cbv [fst snd] in *.
  destruct (fetchFeed 1 newFeed 1) as [reqs res].
  repeat split; trivial. subst reqs. simpl. lia.
Qed.

(** C6: discovery stops at depth 1.  A call at depth 1 makes one request
    and, when the body is not a feed, fails with the parser's
    type-not-detected error without looking for a link.  A call at depth 0
    makes at most two requests: when the body is not a feed it either
    finds no link and fails, or requests the one discovered address at
    depth 1 and returns what that call returns. *)
Theorem fetchFeed_discovery_depth (n : nat) (feedUrl : URL) :
  (fst (fetchFeed (S n) feedUrl 1) = [url_String feedUrl]
   /\ forall contents, notAFeed feedUrl contents ->
        snd (fetchFeed (S n) feedUrl 1) = Some (inr ErrFeedTypeNotDetected))
  /\ (List.length (fst (fetchFeed (S (S n)) feedUrl 0)) <= 2)%nat
  /\ snd (fetchFeed (S (S n)) feedUrl 0) <> None
  /\ forall contents, notAFeed feedUrl contents ->
       match extractFeedLink feedUrl contents with
       | None =>
           fetchFeed (S (S n)) feedUrl 0
           = ([url_String feedUrl], Some (inr ErrNoFeedLink))
       | Some newFeed =>
           fetchFeed (S (S n)) feedUrl 0
           = ([url_String feedUrl; url_String newFeed],
              snd (fetchFeed 1 newFeed 1))
           /\ forall contents', notAFeed newFeed contents' ->
                fetchFeed (S (S n)) feedUrl 0
                = ([url_String feedUrl; url_String newFeed],
                   Some (inr ErrFeedTypeNotDetected))
       end.
Proof.
  split; [split|].
  - apply fetchFeed_deep. discriminate.
  - intros contents H.
    rewrite (fetchFeed_notAFeed_deep n feedUrl 1 contents); trivial.
    discriminate.
  - destruct (fetchFeed_fuel n feedUrl) as (_ & Hres & Hlen).
    split; [exact Hlen|]. split; [exact Hres|].
    intros contents H. rewrite (fetchFeed_notAFeed_top n feedUrl contents H).
    destruct (extractFeedLink feedUrl contents) as [newFeed|]; [|reflexivity].
    destruct (fetchFeed_deep n newFeed 1 ltac:(discriminate)) as (E & Hreq & _).
    split.
    + now rewrite Hreq, E.
    + intros contents' H'.
      rewrite (fetchFeed_notAFeed_deep n newFeed 1 contents'); trivial.
      discriminate.
Qed.

(** *** Aggregator *)

Lemma worker_failed (feed : URL) : succeeded feed = false -> worker feed = [].
Proof.
  unfold succeeded, worker.
  destruct (snd (fetchFeed 2 feed 0)) as [[feedData|err]|];
    intros; [discriminate|reflexivity|reflexivity].
Qed.

Lemma worker_succeeded (feed : URL) :
  succeeded feed = true ->
  exists feedData, snd (fetchFeed 2 feed 0) = Some (inl feedData)
                   /\ worker feed = fst (parseFeed feed feedData).
Proof.
  unfold succeeded, worker.
  destruct (snd (fetchFeed 2 feed 0)) as [[feedData|err]|];
    intros; [now exists feedData|discriminate|discriminate].
Qed.

Lemma worker_FeedLink (feed : URL) (p : Post) :
  In p (worker feed) -> FeedLink p = url_String feed.
Proof.
  unfold worker.
  destruct (snd (fetchFeed 2 feed 0)) as [[feedData|err]|];
    [apply parseFeed_FeedLink|intros []|intros []].
Qed.

(** A feed of [n] copies of an item with a published time gives [n]
    posts. *)
Lemma parseFeed_repeat (feedUrl : URL) (title : string) (i : Item) (n : nat) :
  PublishedParsed i <> None ->
  List.length (fst (parseFeed feedUrl (mkFeed title (repeat i n)))) = n.
Proof.
  intros Hi. unfold parseFeed. simpl. rewrite parseFeed_loop. simpl.
  generalize (mkFeed title (repeat i n)). intros feed.
  induction n as [|n IH]; simpl; [reflexivity|].
  rewrite length_app, IH. unfold parseItem.
  destruct (PublishedParsed i); [reflexivity|congruence].
Qed.

Lemma workers_succeeded (feeds : list URL) :
  List.concat (map worker feeds)
  = List.concat (map worker (filter succeeded feeds)).
Proof.
  induction feeds as [|feed feeds IH]; simpl; [reflexivity|].
  destruct (succeeded feed) eqn:E; simpl.
  - now rewrite IH.
  - now rewrite (worker_failed feed E).
Qed.

Lemma setNth_concat (qs : list (list Post)) :
  forall i p rest,
    nth_error qs i = Some (p :: rest) ->
    Permutation (p :: List.concat (setNth i rest qs)) (List.concat qs).
Proof.
  induction qs as [|q qs IH]; intros [|i] p rest H; simpl in *;
    try discriminate.
  - injection H as ->. reflexivity.
  - rewrite <- (IH i p rest H). apply Permutation_middle.
Qed.

Lemma send_perm (st st' : Chan) :
  send st st' ->
  Permutation (postChan st' ++ pending st') (postChan st ++ pending st).
Proof.
  intros [st0 i p rest Hnth _]. unfold pending. simpl.
  rewrite <- (setNth_concat _ _ _ _ Hnth), <- app_assoc. simpl.
  reflexivity.
Qed.

(** Every send takes one post off those still to send. *)
Lemma send_pending (st st' : Chan) :
  send st st' -> List.length (pending st) = S (List.length (pending st')).
Proof.
  intros [st0 i p rest Hnth _]. unfold pending. simpl.
  apply setNth_concat, Permutation_length in Hnth. simpl in Hnth. lia.
Qed.

Lemma sends_perm (st st' : Chan) :
  sends st st' ->
  Permutation (postChan st' ++ pending st') (postChan st ++ pending st).
Proof.
  induction 1 as [|st st1 st2 H _ IH]; [reflexivity|].
  rewrite IH. now apply send_perm.
Qed.

Lemma allDone_pending (st : Chan) : allDone st -> pending st = [].
Proof.
  unfold allDone, pending. induction 1 as [|q qs -> _ IH]; simpl; trivial.
Qed.

Lemma done_or_pending (qs : list (list Post)) :
  Forall (fun q => q = []) qs
  \/ exists i p rest, nth_error qs i = Some (p :: rest).
Proof.
  induction qs as [|[|p rest] qs IH].
  - left. constructor.
  - destruct IH as [IH|(i & p & rest & IH)].
    + left. now constructor.
    + right. now exists (S i), p, rest.
  - right. now exists 0%nat, p, rest.
Qed.

(** The buffer never holds more than its capacity. *)
Lemma sends_capacity (st st' : Chan) :
  sends st st' ->
  (Z.of_nat (List.length (postChan st)) <= postChanCap)%Z ->
  (Z.of_nat (List.length (postChan st')) <= postChanCap)%Z.
Proof.
  induction 1 as [|st st1 st2 H _ IH]; [trivial|]. intros _. apply IH.
  destruct H as [st0 i p rest _ Hroom]. simpl.
  rewrite length_app. simpl. lia.
Qed.

(** From every state with room for the posts still to send, the
    goroutines can all finish. *)
Lemma sends_finish (n : nat) :
  forall st,
    List.length (pending st) = n ->
    (Z.of_nat (List.length (postChan st) + n) <= postChanCap)%Z ->
    exists st', sends st st' /\ allDone st'.
Proof.
  induction n as [|n IH]; intros st Hn Hroom.
  - exists st. split; [constructor|].
    unfold pending in Hn. unfold allDone.
    destruct (done_or_pending (sending st)) as [H|(i & p & rest & H)]; trivial.
    apply setNth_concat in H. apply Permutation_length in H.
    simpl in H. lia.
  - destruct (done_or_pending (sending st)) as [H|(i & p & rest & H)].
    + apply allDone_pending in H. rewrite H in Hn. discriminate.
    + assert (Hsend : send st (mkChan (setNth i rest (sending st))
                                      (postChan st ++ [p]))).
      { constructor; [exact H | lia]. }
      destruct (IH (mkChan (setNth i rest (sending st)) (postChan st ++ [p])))
        as (st' & Hsends & Hdone).
      * apply setNth_concat in H. apply Permutation_length in H.
        unfold pending in *. simpl in *. lia.
      * simpl. rewrite length_app. simpl. lia.
      * exists st'. split; [|exact Hdone].
        econstructor; eassumption.
Qed.

(** With more posts than the buffer holds, [wg.Wait()] never returns. *)
Lemma fetchAll_blocks (feeds : list URL) :
  (postChanCap < Z.of_nat (List.length (List.concat (map worker feeds))))%Z ->
  forall posts, ~ fetchAll feeds posts.
Proof.
  intros Hbig posts (st & Hsends & Hdone & _).
  assert (Hcap := sends_capacity _ _ Hsends ltac:(simpl; unfold postChanCap; lia)).
  assert (Hperm := sends_perm _ _ Hsends).
  rewrite (allDone_pending st Hdone), app_nil_r in Hperm.
  apply Permutation_length in Hperm. simpl in Hperm.
  unfold pending in Hperm. simpl in Hperm. lia.
Qed.

(** X22: partial failure within the buffer.  While the posts of all
    targets fit the channel's buffer of 10000, [fetchAll] returns: no run
    of the goroutines gets stuck before all are done, and every send
    leaves one post less to send.  What it returns is made of one
    contribution per target, in some order of sending: the posts that
    [parseFeed] makes, for that target, of the feed that [fetchFeed] gave,
    and nothing for a target whose fetch failed.  So the result is the
    posts of the targets that succeeded, and there is no error to
    return. *)
Theorem fetchAll_partial_failure (feeds : list URL) :
  (Z.of_nat (List.length (List.concat (map worker feeds))) <= postChanCap)%Z ->
  (exists posts, fetchAll feeds posts)
  /\ (forall st, sends (started feeds) st ->
                 allDone st \/ exists st', send st st')
  /\ (forall st st', send st st' ->
                     List.length (pending st) = S (List.length (pending st')))
  /\ (forall posts, fetchAll feeds posts ->
        exists sent,
          Forall2 (fun feed q =>
                     (forall feedData,
                         snd (fetchFeed 2 feed 0) = Some (inl feedData) ->
                         q = fst (parseFeed feed feedData))
                     /\ (succeeded feed = false -> q = []))
                  feeds sent
          /\ Permutation posts (List.concat sent))
  /\ (forall posts, fetchAll feeds posts ->
        Permutation posts
          (List.concat (map worker (filter succeeded feeds)))).
Proof.
  intros Hroom. repeat split.
  - destruct (sends_finish (List.length (pending (started feeds)))
                           (started feeds) eq_refl) as (st & Hsends & Hdone).
    + simpl. exact Hroom.
    + exists (postChan st), st. now repeat split.
  - intros st Hsends.
    destruct (done_or_pending (sending st)) as [H|(i & p & rest & H)];
      [now left|right].
    eexists. constructor; [exact H|].
    assert (Hperm := sends_perm _ _ Hsends).
    apply Permutation_length in Hperm. rewrite !length_app in Hperm.
    assert (Hp := setNth_concat _ _ _ _ H).
    apply Permutation_length in Hp.
    unfold pending in Hperm. simpl in Hperm, Hp. lia.
  - apply send_pending.
  - intros posts (st & Hsends & Hdone & ->).
    assert (Hperm := sends_perm _ _ Hsends).
    rewrite (allDone_pending st Hdone), app_nil_r in Hperm.
    exists (map worker feeds). split; [|exact Hperm].
    clear. induction feeds as [|feed feeds IH]; cbn [map]; constructor;
      [|exact IH].
    split.
    + intros feedData E. unfold worker. now rewrite E.
    + apply worker_failed.
  - intros posts (st & Hsends & Hdone & ->).
    assert (Hperm := sends_perm _ _ Hsends).
    rewrite (allDone_pending st Hdone), app_nil_r in Hperm.
    rewrite <- workers_succeeded. exact Hperm.
Qed.

(** C1, as the code has it: every post that [fetchAll] returns was sent
    for one of the targets and carries that target's own address, the one
    handed to [fetchAll], as its [FeedLink]; the address that discovery
    found and [fetchFeed] requested at depth 1 is not recorded. *)
Theorem fetchAll_FeedLink (feeds : list URL) (posts : list Post) :
  fetchAll feeds posts ->
  forall p, In p posts ->
    exists feed, In feed feeds /\ In p (worker feed)
                 /\ FeedLink p = url_String feed.
Proof.
  intros (st & Hsends & Hdone & ->) p Hp.
  assert (Hperm := sends_perm _ _ Hsends).
  rewrite (allDone_pending st Hdone), app_nil_r in Hperm.
  apply (Permutation_in _ Hperm) in Hp. simpl in Hp.
  unfold pending in Hp. simpl in Hp.
  apply in_concat in Hp. destruct Hp as (q & Hq & Hp).
  apply in_map_iff in Hq. destruct Hq as (feed & <- & Hfeed).
  exists feed. repeat split; trivial. now apply worker_FeedLink.
Qed.

Lemma sends_one (q : list Post) :
  forall buffer,
    (Z.of_nat (List.length buffer + List.length q) <= postChanCap)%Z ->
    sends (mkChan [q] buffer) (mkChan [[]] (buffer ++ q)).
Proof.
  induction q as [|p q IH]; intros buffer Hroom.
  - rewrite app_nil_r. constructor.
  - econstructor.
    + apply (send_post (mkChan [p :: q] buffer) 0 p q); simpl;
        [reflexivity | simpl in Hroom; lia].
    + simpl. replace (buffer ++ p :: q) with ((buffer ++ [p]) ++ q)
        by now rewrite <- app_assoc.
      apply IH. rewrite length_app. simpl in *. lia.
Qed.

(** A single target: its posts are returned as its goroutine sent them. *)
Lemma fetchAll_one (feed : URL) :
  (Z.of_nat (List.length (worker feed)) <= postChanCap)%Z ->
  fetchAll [feed] (worker feed).
Proof.
  intros Hroom. exists (mkChan [[]] (worker feed)). repeat split.
  - apply (sends_one (worker feed) []). exact Hroom.
  - repeat constructor.
Qed.

(** No target, no post. *)
Lemma fetchAll_nil (posts : list Post) : fetchAll [] posts <-> posts = [].
Proof.
  split.
  - intros (st & Hsends & _ & ->).
    inversion Hsends as [|st1 st2 Hsend Hrest]; subst; [reflexivity|].
    inversion Hsend; subst.
    match goal with
    | Hnth : nth_error _ ?i = Some _ |- _ => destruct i; discriminate Hnth
    end.
  - intros ->. exists (mkChan [] []). repeat split; constructor.
Qed.

(** *** Feed Source Resolver *)

Lemma strings_Split_plain (sep : ascii) (l : string) :
  contains_char sep l = false -> strings_Split l sep = [l].
Proof.
  induction l as [|c l IH]; simpl; [reflexivity|].
  intros H. apply orb_false_iff in H. destruct H as [Hc Hl].
  rewrite Hc, (IH Hl). reflexivity.
Qed.

Lemma strings_Split_app (sep : ascii) (l s : string) :
  contains_char sep l = false ->
  strings_Split (l ++ String sep s) sep = l :: strings_Split s sep.
Proof.
  induction l as [|c l IH]; simpl.
  - intros _. now rewrite Ascii.eqb_refl.
  - intros H. apply orb_false_iff in H. destruct H as [Hc Hl].
    rewrite Hc, (IH Hl). reflexivity.
Qed.

Lemma append_assoc (a b c : string) :
  ((a ++ b) ++ c)%string = (a ++ (b ++ c))%string.
Proof. induction a as [|x a IH]; simpl; [reflexivity|]. now rewrite IH. Qed.

Lemma strings_Split_Join (sep : ascii) (ls : list string) :
  ls <> [] -> Forall (fun l => contains_char sep l = false) ls ->
  strings_Split (strings_Join ls sep) sep = ls
  /\ strings_Split (strings_Join ls sep ++ String sep EmptyString) sep
     = ls ++ [EmptyString].
Proof.
  induction ls as [|l ls IH]; [congruence|]. intros _ H.
  inversion H as [|? ? Hl Hls]; subst.
  destruct ls as [|l2 ls].
  - simpl. split; [now apply strings_Split_plain|].
    now rewrite strings_Split_app.
  - destruct (IH ltac:(discriminate) Hls) as [IH1 IH2].
    change (strings_Join (l :: l2 :: ls) sep)
      with (l ++ String sep (strings_Join (l2 :: ls) sep))%string.
    split.
    + rewrite strings_Split_app, IH1; trivial.
    + rewrite append_assoc.
      change (String sep (strings_Join (l2 :: ls) sep)
                ++ String sep EmptyString)%string
        with (String sep (strings_Join (l2 :: ls) sep
                            ++ String sep EmptyString))%string.
      rewrite strings_Split_app, IH2; trivial.
Qed.

Lemma parseLines_ok (lines : list string) :
  forall urls acc,
    Forall2 parsesTo (filter nonEmpty lines) urls ->
    parseLines lines acc = inl (acc ++ urls).
Proof.
  induction lines as [|l lines IH]; intros urls acc H; simpl in *.
  - inversion H. now rewrite app_nil_r.
  - unfold nonEmpty in H at 1. destruct (String.eqb l EmptyString); simpl in H.
    + now apply IH.
    + inversion H as [|? u ? urls' Hl Hrest]; subst.
      unfold parsesTo in Hl. rewrite Hl, (IH urls' (acc ++ [u]) Hrest).
      now rewrite <- app_assoc.
Qed.

Lemma parseLines_bad (lines : list string) :
  forall pre bad post cause acc,
    filter nonEmpty lines = pre ++ bad :: post ->
    Forall (fun l => exists u, parsesTo l u) pre ->
    url_Parse bad = inr cause ->
    parseLines lines acc = inr (ErrUrlParse bad cause).
Proof.
  induction lines as [|l lines IH]; intros pre bad post cause acc E Hpre Hbad;
    simpl in *.
  - now destruct pre.
  - unfold nonEmpty in E at 1. destruct (String.eqb l EmptyString); simpl in E.
    + eapply IH; eassumption.
    + destruct pre as [|l' pre]; simpl in E; injection E as -> E.
      * now rewrite Hbad.
      * inversion Hpre as [|? ? [u Hu] Hpre']; subst.
        unfold parsesTo in Hu. rewrite Hu. eapply IH; eassumption.
Qed.

Lemma filter_nonEmpty_lines (ls : list string) :
  Forall (fun l => l <> EmptyString) ls ->
  filter nonEmpty ls = ls /\ filter nonEmpty (ls ++ [EmptyString]) = ls.
Proof.
  induction 1 as [|l ls Hl _ [IH1 IH2]]; simpl; [now split|].
  assert (E : nonEmpty l = true).
  { unfold nonEmpty. now destruct (String.eqb_spec l EmptyString). }
  rewrite E, IH1, IH2. now split.
Qed.

(** C7: on an existing regular file whose contents are read,
    [parseFeedArg] splits the contents at the newlines, drops the empty
    lines, and returns the addresses of the other lines in the file's
    order; the first line that does not parse makes it fail with the
    error that names that line.  In particular a file of [N] non-empty
    lines that parse, joined by newlines, with or without a closing
    newline, gives their [N] addresses in order. *)
Theorem parseFeedArg_file (feed contents : string) :
  os_Stat feed = StatOk true ->
  ioutil_ReadFile feed = inl contents ->
  let lines := filter nonEmpty (strings_Split contents newline) in
  (forall urls, Forall2 parsesTo lines urls -> parseFeedArg feed = inl urls)
  /\ (forall pre bad post cause,
        lines = pre ++ bad :: post ->
        Forall (fun l => exists u, parsesTo l u) pre ->
        url_Parse bad = inr cause ->
        parseFeedArg feed = inr (ErrUrlParse bad cause))
  /\ (forall file urls,
        contents = strings_Join file newline
        \/ contents
           = (strings_Join file newline ++ String newline EmptyString)%string ->
        Forall (fun l => l <> EmptyString
                         /\ contains_char newline l = false) file ->
        Forall2 parsesTo file urls ->
        parseFeedArg feed = inl urls
        /\ List.length urls = List.length file).
Proof.
  intros Hstat Hread lines.
  assert (E : parseFeedArg feed
              = parseLines (strings_Split contents newline) []).
  { unfold parseFeedArg. now rewrite Hstat, Hread. }
  assert (Hok : forall urls, Forall2 parsesTo lines urls ->
                             parseFeedArg feed = inl urls).
  { intros urls H. rewrite E. now apply (parseLines_ok _ urls []). }
  split; [exact Hok|]. split.
  - intros pre bad post cause Hlines Hpre Hbad. rewrite E.
    eapply parseLines_bad; eassumption.
  - intros file urls Hcontents Hfile Hurls.
    split; [|symmetry; eapply Forall2_length; eassumption].
    apply Hok. unfold lines.
    assert (Hne : Forall (fun l => l <> EmptyString) file).
    { eapply Forall_impl; [|exact Hfile]. now intros l [H _]. }
    assert (Hnl : Forall (fun l => contains_char newline l = false) file).
    { eapply Forall_impl; [|exact Hfile]. now intros l [_ H]. }
    destruct (filter_nonEmpty_lines file Hne) as [F1 F2].
    destruct file as [|l file].
    + inversion Hurls; subst.
      destruct Hcontents as [->| ->]; simpl; constructor.
    + destruct (strings_Split_Join newline (l :: file)
                  ltac:(discriminate) Hnl) as [S1 S2].
      destruct Hcontents as [->| ->].
      * now rewrite S1, F1.
      * now rewrite S2, F2.
Qed.

(** *** main *)

(** Arguments that resolve to no address: the run goes on to render the
    empty listing. *)
Lemma main_no_targets (feedsList : list string) :
  feedsList <> [] -> hd EmptyString feedsList <> "version" ->
  parseFeedArgs feedsList [] = inl [] ->
  (forall o, main feedsList o ->
     (o = Rendered [[]] /\ exitCode o = 0%Z)
     \/ (o = TempFileFailed /\ web = true /\ ioutil_TempFile = false))
  /\ ((web = true -> ioutil_TempFile = true) ->
      main feedsList (Rendered [[]])).
Proof.
  intros Hne Hv Hfeeds. split.
  - intros o H. inversion H; subst; simpl in Hv; try congruence.
    + right. now repeat split.
    + left. rewrite Hfeeds in *.
      match goal with
      | Hf : inl [] = inl _ |- _ => injection Hf as <-
      end.
      match goal with
      | Hf : fetchAll [] _ |- _ => apply fetchAll_nil in Hf; subst
      end.
      rewrite groupByDate_nil. now split.
  - intros Htmp.
    rewrite <- (groupByDate_nil "Jan 2006").
    eapply main_render; try eassumption. now apply fetchAll_nil.
Qed.

(** C8, as the code has it.  The guard of [main] is on the arguments: with
    no argument the run ends with the fatal error, exit code 1, before
    anything is resolved.  When arguments are given and resolve to no
    address at all (an empty file does), nothing is fatal: [fetchAll]
    returns no post and the empty listing is rendered, exit code 0,
    unless [--web] is set and its temporary file cannot be made. *)
Theorem main_empty_feed_list :
  (forall o, main [] o <-> o = NoFeedProvided)
  /\ exitCode NoFeedProvided = 1%Z
  /\ forall feedsList,
       feedsList <> [] -> hd EmptyString feedsList <> "version" ->
       parseFeedArgs feedsList [] = inl [] ->
       (forall o, main feedsList o ->
          (o = Rendered [[]] /\ exitCode o = 0%Z)
          \/ (o = TempFileFailed /\ web = true /\ ioutil_TempFile = false))
       /\ ((web = true -> ioutil_TempFile = true) ->
           main feedsList (Rendered [[]])).
Proof.
  split; [|split; [reflexivity|]].
  - intros o. split.
    + intros H. inversion H; subst; congruence.
    + intros ->. constructor.
  - apply main_no_targets.
Qed.

(** ** Further properties *)

(** *** sort.Interface *)

(** X1: [ByTimestamp.Less] is a strict weak ordering, as [sort.Sort]
    requires of [Less]: no post is before itself, the order is
    transitive, and so is being in neither order (equal instants). *)
Theorem ByTimestamp_Less_strict_weak_order :
  (forall a, ByTimestamp_Less a a = false)
  /\ (forall a b, ByTimestamp_Less a b = true -> ByTimestamp_Less b a = false)
  /\ (forall a b c, ByTimestamp_Less a b = true ->
                    ByTimestamp_Less b c = true ->
                    ByTimestamp_Less a c = true)
  /\ (forall a b c,
        ByTimestamp_Less a b = false -> ByTimestamp_Less b a = false ->
        ByTimestamp_Less b c = false -> ByTimestamp_Less c b = false ->
        ByTimestamp_Less a c = false /\ ByTimestamp_Less c a = false).
Proof.
  unfold ByTimestamp_Less, Time_After. repeat split.
  - intros a. apply Z.ltb_irrefl.
  - intros a b H. apply Z.ltb_lt in H. apply Z.ltb_ge. lia.
  - intros a b c H1 H2. apply Z.ltb_lt in H1, H2. apply Z.ltb_lt. lia.
  - apply Z.ltb_ge in H, H0, H1, H2. apply Z.ltb_ge. lia.
  - apply Z.ltb_ge in H, H0, H1, H2. apply Z.ltb_ge. lia.
Qed.

Lemma listSet_length {A : Type} (l : list A) :
  forall i x, List.length (listSet i x l) = List.length l.
Proof.
  induction l as [|y l IH]; intros [|i] x; simpl; trivial. now rewrite IH.
Qed.

Lemma listSet_nth_error {A : Type} (l : list A) :
  forall i k x,
    nth_error (listSet i x l) k
    = if Nat.eqb k i then (if Nat.ltb i (List.length l) then Some x else None)
      else nth_error l k.
Proof.
  induction l as [|y l IH]; intros i k x.
  - destruct i, k; simpl; try reflexivity.
    now destruct (Nat.eqb k i).
  - destruct i as [|i], k as [|k]; simpl; try reflexivity.
    rewrite IH. reflexivity.
Qed.

Lemma listSet_id {A : Type} (l : list A) :
  forall i x, nth_error l i = Some x -> listSet i x l = l.
Proof.
  induction l as [|y l IH]; intros [|i] x H; simpl in *; try discriminate.
  - now injection H as ->.
  - now rewrite IH.
Qed.

Lemma listSet_perm {A : Type} (l : list A) :
  forall i j a b,
    i <> j -> nth_error l i = Some a -> nth_error l j = Some b ->
    Permutation (listSet j a (listSet i b l)) l.
Proof.
  induction l as [|y l IH]; intros i j a b Hij Hi Hj.
  - now destruct i.
  - destruct i as [|i], j as [|j]; simpl in *; try congruence.
    + injection Hi as ->.
      (* the head goes to [j] and the element at [j] comes first *)
      clear IH Hij. revert j Hj.
      induction l as [|z l IHl]; intros [|j] Hj; simpl in *; try discriminate.
      * injection Hj as ->. apply perm_swap.
      * specialize (IHl j Hj).
        rewrite (perm_swap z b (listSet j a l)).
        rewrite (perm_swap z a l). now apply perm_skip.
    + injection Hj as ->.
      clear IH Hij. revert i Hi.
      induction l as [|z l IHl]; intros [|i] Hi; simpl in *; try discriminate.
      * injection Hi as ->. apply perm_swap.
      * specialize (IHl i Hi).
        rewrite (perm_swap z a (listSet i b l)).
        rewrite (perm_swap z b l). now apply perm_skip.
    + apply perm_skip. apply IH; trivial. congruence.
Qed.

Lemma inRange_nth_error (posts : list Post) (i : Z) :
  inRange posts i = true ->
  exists a, nth_error posts (Z.to_nat i) = Some a.
Proof.
  unfold inRange, Posts_Len. intros H. apply andb_true_iff in H.
  destruct H as [H0 H1]. apply Z.leb_le in H0. apply Z.ltb_lt in H1.
  destruct (nth_error posts (Z.to_nat i)) as [a|] eqn:E; [now exists a|].
  apply nth_error_None in E. lia.
Qed.

(** X2: [Posts.Swap] on two indices in range exchanges the two posts and
    nothing else: the slice keeps its length and its posts, and a second
    swap of the same indices restores it.  With an index out of range it
    panics. *)
Theorem Posts_Swap_exchanges (posts : list Post) (i j : Z) :
  (inRange posts i && inRange posts j = false -> Posts_Swap posts i j = None)
  /\ (inRange posts i && inRange posts j = true ->
      exists posts',
        Posts_Swap posts i j = Some posts'
        /\ Posts_Len posts' = Posts_Len posts
        /\ Permutation posts' posts
        /\ nth_error posts' (Z.to_nat i) = nth_error posts (Z.to_nat j)
        /\ nth_error posts' (Z.to_nat j) = nth_error posts (Z.to_nat i)
        /\ (forall k, k <> Z.to_nat i -> k <> Z.to_nat j ->
                      nth_error posts' k = nth_error posts k)
        /\ Posts_Swap posts' i j = Some posts).
Proof.
  split; intros Hr.
  - unfold Posts_Swap. now rewrite Hr.
  - assert (Hr' := Hr). apply andb_true_iff in Hr'. destruct Hr' as [Hi Hj].
    destruct (inRange_nth_error posts i Hi) as [a Ha].
    destruct (inRange_nth_error posts j Hj) as [b Hb].
    set (n := Z.to_nat i) in *. set (m := Z.to_nat j) in *.
    assert (Hn : n < List.length posts) by (apply nth_error_Some; congruence).
    assert (Hm : m < List.length posts) by (apply nth_error_Some; congruence).
    apply Nat.ltb_lt in Hn, Hm.
    exists (listSet m a (listSet n b posts)).
    assert (Hlen : List.length (listSet m a (listSet n b posts))
                   = List.length posts) by now rewrite !listSet_length.
    assert (Hat_n : nth_error (listSet m a (listSet n b posts)) n = Some b).
    { rewrite !listSet_nth_error, listSet_length, Hn, Hm, Nat.eqb_refl.
      destruct (Nat.eqb_spec n m) as [E|_]; [|reflexivity].
      rewrite E in Ha. congruence. }
    assert (Hat_m : nth_error (listSet m a (listSet n b posts)) m = Some a).
    { now rewrite listSet_nth_error, listSet_length, Hm, Nat.eqb_refl. }
    repeat split.
    + unfold Posts_Swap. rewrite Hr. fold n m. now rewrite Ha, Hb.
    + unfold Posts_Len. now rewrite Hlen.
    + destruct (Nat.eq_dec n m) as [E|NE].
      * rewrite <- E in *. assert (a = b) by congruence. subst b.
        rewrite (listSet_id posts n a Ha). now rewrite (listSet_id posts n a Ha).
      * now apply listSet_perm.
    + now rewrite Hb.
    + now rewrite Ha.
    + intros k Hkn Hkm. rewrite !listSet_nth_error.
      apply Nat.eqb_neq in Hkn, Hkm. now rewrite Hkn, Hkm.
    + unfold Posts_Swap, inRange, Posts_Len. rewrite Hlen.
      fold (Posts_Len posts). fold (inRange posts i) (inRange posts j).
      rewrite Hr. fold n m. rewrite Hat_n, Hat_m. f_equal.
      (* setting back: index by index *)
      apply nth_error_ext. intros k.
      rewrite !listSet_nth_error, !listSet_length, Hn, Hm.
      destruct (Nat.eqb_spec k m) as [->|Hkm]; [now rewrite Hb|].
      destruct (Nat.eqb_spec k n) as [->|Hkn]; [now rewrite Ha|].
      reflexivity.
Qed.

(** *** Grouper/Sorter: the order of the input *)

(** Without ties there is one sorted order. *)
Lemma sorted_unique (l1 : list Post) :
  forall l2,
    StronglySorted notBefore l1 -> StronglySorted notBefore l2 ->
    Permutation l1 l2 -> NoDup (map instant l1) -> l1 = l2.
Proof.
  induction l1 as [|x l1 IH]; intros l2 H1 H2 Hperm Hnodup.
  - now apply Permutation_nil in Hperm.
  - destruct l2 as [|y l2].
    { apply Permutation_sym, Permutation_nil in Hperm. discriminate. }
    apply StronglySorted_inv in H1. destruct H1 as [H1 Hx].
    apply StronglySorted_inv in H2. destruct H2 as [H2 Hy].
    inversion Hnodup as [|? ? Hnotin Hnodup']; subst.
    assert (E : x = y).
    { assert (Hx2 : In x (y :: l2))
        by (eapply Permutation_in; [exact Hperm | now left]).
      assert (Hy1 : In y (x :: l1))
        by (eapply Permutation_in;
            [apply Permutation_sym; exact Hperm | now left]).
      destruct Hx2 as [E|Hx2]; [now symmetry|].
      destruct Hy1 as [E|Hy1]; [exact E|].
      exfalso. apply Hnotin.
      rewrite Forall_forall in Hx, Hy.
      assert (Hle1 := proj1 (notBefore_instant x y) (Hx y Hy1)).
      assert (Hle2 := proj1 (notBefore_instant y x) (Hy x Hx2)).
      replace (instant x) with (instant y) by lia.
      now apply in_map. }
    subst y. f_equal. apply IH; trivial.
    now apply Permutation_cons_inv in Hperm.
Qed.

Lemma groupByDate_order_independent_aux
      (posts posts' : list Post) (dateFormat : string) :
  NoDup (map instant posts) ->
  Permutation posts posts' ->
  groupByDate posts dateFormat = groupByDate posts' dateFormat.
Proof.
  intros Hnodup Hperm. rewrite !groupByDate_chunks. f_equal.
  apply sorted_unique.
  - apply sort_Sort_sorted.
  - apply sort_Sort_sorted.
  - rewrite (sort_Sort_perm posts), (sort_Sort_perm posts'). exact Hperm.
  - eapply Permutation_NoDup; [|exact Hnodup].
    apply Permutation_map, Permutation_sym, sort_Sort_perm.
Qed.

(** X3: when no two posts have the same instant, [groupByDate] does not
    depend on the order of its input: permuted inputs give the same
    buckets, and grouping the posts of a grouped result again gives the
    same result. *)
Theorem groupByDate_order_independent
        (posts posts' : list Post) (dateFormat : string) :
  NoDup (map instant posts) ->
  Permutation posts posts' ->
  groupByDate posts dateFormat = groupByDate posts' dateFormat
  /\ groupByDate (List.concat (groupByDate posts dateFormat)) dateFormat
     = groupByDate posts dateFormat.
Proof.
  intros Hnodup Hperm.
  assert (Hsame : forall l, Permutation posts l ->
            sort_Sort ByTimestamp_Less l = sort_Sort ByTimestamp_Less posts).
  { intros l Hl. symmetry. apply sorted_unique.
    - apply sort_Sort_sorted.
    - apply sort_Sort_sorted.
    - rewrite (sort_Sort_perm posts), (sort_Sort_perm l). exact Hl.
    - eapply Permutation_NoDup; [|exact Hnodup].
      apply Permutation_map, Permutation_sym, sort_Sort_perm. }
  split.
  - rewrite !groupByDate_chunks. now rewrite (Hsame posts' Hperm).
  - rewrite (groupByDate_chunks (List.concat _)), groupByDate_concat.
    rewrite (Hsame (sort_Sort ByTimestamp_Less posts)).
    + now rewrite <- groupByDate_chunks.
    + apply Permutation_sym, sort_Sort_perm.
Qed.

(** *** Post Normalizer: what the posts carry *)

Lemma parseItem_hasTime (feedUrl : URL) (feed : Feed) (i : Item) :
  parseItem feedUrl feed [] i
  = if hasTime i
    then [mkPost (Item_Title i) (Item_Link i)
                 (match PublishedParsed i with
                  | Some t => t
                  | None => match UpdatedParsed i with
                            | Some t => t
                            | None => mkTime 0 0
                            end
                  end)
                 (url_String feedUrl) (Feed_Title feed)]
    else [].
Proof.
  unfold parseItem, hasTime.
  destruct (PublishedParsed i); [reflexivity|].
  destruct (UpdatedParsed i); reflexivity.
Qed.

(** X5: the posts of [parseFeed] are the items that have a time, in the
    feed's order, with the item's title and link; every post carries the
    feed's title and the address given to [parseFeed]; there are as many
    posts as items exactly when every item has a time. *)
Theorem parseFeed_posts (feedUrl : URL) (feed : Feed) :
  let posts := fst (parseFeed feedUrl feed) in
  map Link posts = map Item_Link (filter hasTime (Items feed))
  /\ map Title posts = map Item_Title (filter hasTime (Items feed))
  /\ Forall (fun p => FeedLink p = url_String feedUrl
                      /\ FeedTitle p = Feed_Title feed) posts
  /\ (List.length posts <= List.length (Items feed))%nat
  /\ (List.length posts = List.length (Items feed)
      <-> forallb hasTime (Items feed) = true).
Proof.
  intros posts. unfold posts, parseFeed. simpl. rewrite parseFeed_loop. simpl.
  generalize (Items feed). intros items.
  induction items as [|i items (IH1 & IH2 & IH3 & IH4 & IH5)]; simpl.
  - repeat split; trivial.
  - rewrite parseItem_hasTime. destruct (hasTime i); simpl.
    + rewrite IH1, IH2.
      split; [reflexivity|]. split; [reflexivity|].
      split; [constructor; [now split | exact IH3]|].
      split; [lia|]. split.
      * intros H. apply IH5. lia.
      * intros H. f_equal. now apply IH5.
    + split; [exact IH1|]. split; [exact IH2|]. split; [exact IH3|].
      split; [lia|]. split; [lia|discriminate].
Qed.

(** *** Feed Fetcher: requests and results *)

Lemma status_2xx (status : Z) :
  (status <? 200)%Z || (300 <=? status)%Z = false <-> (200 <= status < 300)%Z.
Proof.
  rewrite orb_false_iff, Z.ltb_ge, Z.leb_gt. lia.
Qed.

(** Either the target is a page in which a feed link is found, or it is
    not. *)
Lemma discovery_cases (feedUrl : URL) :
  (exists contents newFeed,
      notAFeed feedUrl contents
      /\ extractFeedLink feedUrl contents = Some newFeed)
  \/ (forall contents newFeed,
         notAFeed feedUrl contents ->
         extractFeedLink feedUrl contents <> Some newFeed).
Proof.
  destruct (http_Do (url_String feedUrl)) as [cause|status body] eqn:Hdo.
  { right. intros c u (st & H & _). congruence. }
  destruct body as [contents|cause].
  2:{ right. intros c u (st & H & _). congruence. }
  destruct (extractFeedLink feedUrl contents) as [newFeed|] eqn:Hlink.
  2:{ right. intros c u (st & H & _) E.
      rewrite Hdo in H. injection H as <- <-. congruence. }
  destruct (gofeed_ParseString contents) as [feed|err] eqn:Hparse.
  { right. intros c u (st & H & _ & H3) _.
    rewrite Hdo in H. injection H as <- <-. congruence. }
  destruct ((status <? 200)%Z || (300 <=? status)%Z) eqn:Hstatus.
  { right. intros c u (st & H & H2 & _) _.
    rewrite Hdo in H. injection H as <- <-.
    apply status_2xx in H2. congruence. }
  apply status_2xx in Hstatus.
  assert (Hd : err = ErrFeedTypeNotDetected \/ err <> ErrFeedTypeNotDetected)
    by (destruct err; (now left) || (right; discriminate)).
  destruct Hd as [->|Hd].
  - left. exists contents, newFeed. split; [now exists status|exact Hlink].
  - right. intros c u (st & H & _ & H3) _.
    rewrite Hdo in H. injection H as <- <-. congruence.
Qed.

(** What one call does when it does not call itself. *)
Lemma fetchFeed_direct (fuel : nat) (feedUrl : URL) (depth : Z) :
  (depth <> 0%Z
   \/ forall contents newFeed,
        notAFeed feedUrl contents ->
        extractFeedLink feedUrl contents <> Some newFeed) ->
  fst (fetchFeed (S fuel) feedUrl depth) = [url_String feedUrl]
  /\ forall feed, snd (fetchFeed (S fuel) feedUrl depth) = Some (inl feed) ->
                  servesFeed (url_String feedUrl) feed.
Proof.
  intros Hdirect. rewrite fetchFeed_unfold.
  destruct (http_Do (url_String feedUrl)) as [cause|status body] eqn:Hdo.
  { split; [reflexivity|intros ? E; discriminate E]. }
  destruct ((status <? 200)%Z || (300 <=? status)%Z) eqn:Hstatus.
  { split; [reflexivity|intros ? E; discriminate E]. }
  apply status_2xx in Hstatus.
  destruct body as [contents|cause];
    [|split; [reflexivity|intros ? E; discriminate E]].
  destruct (gofeed_ParseString contents) as [feed|err] eqn:Hparse.
  { split; [reflexivity|]. intros feed' E. injection E as <-.
    now exists status, contents. }
  destruct err; try (split; [reflexivity|intros ? E; discriminate E]).
  destruct (Z.eqb_spec depth 0) as [Hd|Hd];
    [|split; [reflexivity|intros ? E; discriminate E]].
  destruct (extractFeedLink feedUrl contents) as [newFeed|] eqn:Hlink;
    [|split; [reflexivity|intros ? E; discriminate E]].
  exfalso. destruct Hdirect as [Hdirect|Hdirect]; [contradiction|].
  apply (Hdirect contents newFeed); trivial. now exists status.
Qed.

(** X6: a call of [fetchFeed] at depth 0 requests the target first, and
    requests a second address exactly when the target answers with a body
    that is not a feed and in which a feed link is found; the second
    address is that link. *)
Theorem fetchFeed_requests (n : nat) (feedUrl : URL) :
  let requests := fst (fetchFeed (S (S n)) feedUrl 0) in
  hd_error requests = Some (url_String feedUrl)
  /\ (List.length requests = 2%nat
      <-> exists contents newFeed,
            notAFeed feedUrl contents
            /\ extractFeedLink feedUrl contents = Some newFeed)
  /\ (forall contents newFeed,
        notAFeed feedUrl contents ->
        extractFeedLink feedUrl contents = Some newFeed ->
        requests = [url_String feedUrl; url_String newFeed])
  /\ ((forall contents newFeed,
         notAFeed feedUrl contents ->
         extractFeedLink feedUrl contents <> Some newFeed) ->
      requests = [url_String feedUrl]).
Proof.
  intros requests.
  assert (Hfound : forall contents newFeed,
             notAFeed feedUrl contents ->
             extractFeedLink feedUrl contents = Some newFeed ->
             requests = [url_String feedUrl; url_String newFeed]).
  { intros contents newFeed Hnot Hlink. unfold requests.
    rewrite (fetchFeed_notAFeed_top n feedUrl contents Hnot), Hlink.
    destruct (fetchFeed_deep n newFeed 1 ltac:(discriminate)) as (_ & E & _).
    cbn [fst]. now rewrite E. }
  assert (Hnone : (forall contents newFeed,
                      notAFeed feedUrl contents ->
                      extractFeedLink feedUrl contents <> Some newFeed) ->
                  requests = [url_String feedUrl]).
  { intros Hno. unfold requests.
    exact (proj1 (fetchFeed_direct (S n) feedUrl 0 (or_intror Hno))). }
  split; [|split; [|split; [exact Hfound|exact Hnone]]].
  - destruct (discovery_cases feedUrl) as [(c & u & Hc & Hu)|Hno].
    + rewrite (Hfound c u Hc Hu). reflexivity.
    + rewrite (Hnone Hno). reflexivity.
  - split.
    + intros Hlen. destruct (discovery_cases feedUrl) as [H|Hno]; [exact H|].
      rewrite (Hnone Hno) in Hlen. discriminate Hlen.
    + intros (c & u & Hc & Hu). rewrite (Hfound c u Hc Hu). reflexivity.
Qed.

(** X7: [fetchFeed] returns a feed only when the last address it
    requested answered with a 2xx status and a body that the parser read
    as that feed; and a target that answers so is returned at once. *)
Theorem fetchFeed_feed (n : nat) (feedUrl : URL) (feed : Feed) :
  (snd (fetchFeed (S (S n)) feedUrl 0) = Some (inl feed) ->
   servesFeed (last (fst (fetchFeed (S (S n)) feedUrl 0)) EmptyString) feed)
  /\ (servesFeed (url_String feedUrl) feed ->
      fetchFeed (S (S n)) feedUrl 0 = ([url_String feedUrl], Some (inl feed))).
Proof.
  split.
  - destruct (discovery_cases feedUrl) as [(c & u & Hc & Hu)|Hno].
    + rewrite (fetchFeed_notAFeed_top n feedUrl c Hc), Hu.
      assert (Hdeep : (1 <> 0)%Z) by discriminate.
      destruct (fetchFeed_direct n u 1 (or_introl Hdeep)) as [Hreq Hfeed].
      cbn [fst snd]. rewrite Hreq. intros E.
      change (last [url_String feedUrl; url_String u] EmptyString)
        with (url_String u).
      apply Hfeed, E.
    + destruct (fetchFeed_direct (S n) feedUrl 0 (or_intror Hno))
        as [Hreq Hfeed].
      rewrite Hreq. intros E.
      change (last [url_String feedUrl] EmptyString) with (url_String feedUrl).
      apply Hfeed, E.
  - intros (status & contents & Hdo & Hstatus & Hparse).
    rewrite fetchFeed_unfold, Hdo, Hparse.
    apply status_2xx in Hstatus. rewrite Hstatus. reflexivity.
Qed.

(** *** Aggregator: the order of the posts *)

Lemma setNth_length (qs : list (list Post)) :
  forall i q, List.length (setNth i q qs) = List.length qs.
Proof.
  induction qs as [|q0 qs IH]; intros [|i] q; simpl; trivial. now rewrite IH.
Qed.

Lemma setNth_eq (qs : list (list Post)) :
  forall i q q0, nth_error qs i = Some q0 -> nth_error (setNth i q qs) i = Some q.
Proof.
  induction qs as [|q1 qs IH]; intros [|i] q q0 H; simpl in *;
    try discriminate; [reflexivity|]. eapply IH; eassumption.
Qed.

Lemma setNth_neq (qs : list (list Post)) :
  forall i j q, i <> j -> nth_error (setNth i q qs) j = nth_error qs j.
Proof.
  induction qs as [|q1 qs IH]; intros [|i] [|j] q H; simpl; trivial;
    try congruence. apply IH. congruence.
Qed.

Lemma setNth_same (qs : list (list Post)) :
  forall i q, nth_error qs i = Some q -> setNth i q qs = qs.
Proof.
  induction qs as [|q1 qs IH]; intros [|i] q H; simpl in *; try discriminate.
  - now injection H as ->.
  - now rewrite IH.
Qed.

Lemma setNth_twice (qs : list (list Post)) :
  forall i q q', setNth i q (setNth i q' qs) = setNth i q qs.
Proof.
  induction qs as [|q1 qs IH]; intros [|i] q q'; simpl; trivial.
  now rewrite IH.
Qed.

(** The posts a goroutine has sent are in the buffer, in its order. *)
Lemma sends_order (st st' : Chan) :
  sends st st' ->
  forall i q, nth_error (sending st) i = Some q ->
    exists sent cur added,
      nth_error (sending st') i = Some cur
      /\ q = sent ++ cur
      /\ postChan st' = postChan st ++ added
      /\ subseq sent added.
Proof.
  induction 1 as [st|st st1 st2 Hsend _ IH]; intros i q Hq.
  - exists [], q, []. repeat split; trivial.
    + now rewrite app_nil_r.
    + constructor.
  - destruct Hsend as [st k p rest Hk Hroom].
    destruct (Nat.eq_dec k i) as [->|Hki].
    + rewrite Hk in Hq. injection Hq as <-.
      destruct (IH i rest) as (sent & cur & added & H1 & H2 & H3 & H4).
      { simpl. eapply setNth_eq. eassumption. }
      exists (p :: sent), cur, (p :: added). repeat split; trivial.
      * simpl. now rewrite H2.
      * rewrite H3. simpl. now rewrite <- app_assoc.
      * now constructor.
    + destruct (IH i q) as (sent & cur & added & H1 & H2 & H3 & H4).
      { simpl. now rewrite setNth_neq. }
      exists sent, cur, (p :: added). repeat split; trivial.
      * rewrite H3. simpl. now rewrite <- app_assoc.
      * now constructor.
Qed.

(** X11: in what [fetchAll] returns, the posts of every target occur in
    the order in which that target's feed lists them; only posts of
    different targets interleave. *)
Theorem fetchAll_target_order (feeds : list URL) (posts : list Post) :
  fetchAll feeds posts ->
  forall feed, In feed feeds -> subseq (worker feed) posts.
Proof.
  intros (st & Hsends & Hdone & ->) feed Hfeed.
  apply In_nth_error in Hfeed. destruct Hfeed as [i Hi].
  destruct (sends_order _ _ Hsends i (worker feed))
    as (sent & cur & added & H1 & H2 & H3 & H4).
  { simpl. now apply map_nth_error. }
  unfold allDone in Hdone. rewrite Forall_forall in Hdone.
  assert (cur = []) by (apply Hdone; eapply nth_error_In; eassumption).
  subst cur. rewrite app_nil_r in H2. subst sent.
  rewrite H3. exact H4.
Qed.

(** One goroutine sends all its posts while the others wait. *)
Lemma sends_drain (q : list Post) :
  forall qs buffer i,
    nth_error qs i = Some q ->
    (Z.of_nat (List.length buffer + List.length q) <= postChanCap)%Z ->
    sends (mkChan qs buffer) (mkChan (setNth i [] qs) (buffer ++ q)).
Proof.
  induction q as [|p q IH]; intros qs buffer i Hi Hroom.
  - rewrite app_nil_r, (setNth_same qs i [] Hi). constructor.
  - econstructor.
    + apply (send_post (mkChan qs buffer) i p q); simpl;
        [exact Hi | simpl in Hroom; lia].
    + simpl. replace (buffer ++ p :: q) with ((buffer ++ [p]) ++ q)
        by now rewrite <- app_assoc.
      rewrite <- (setNth_twice qs i [] q). apply IH.
      * eapply setNth_eq. eassumption.
      * rewrite length_app. simpl in *. lia.
Qed.

Lemma sends_trans (a b c : Chan) : sends a b -> sends b c -> sends a c.
Proof.
  induction 1 as [|a a1 b Hstep _ IH]; [trivial|].
  intros Hbc. econstructor; [exact Hstep|]. now apply IH.
Qed.

Lemma sentInOrder_unchanged (order : list nat) (qs : list (list Post)) (i : nat) :
  ~ In i order -> sentInOrder order (setNth i [] qs) = sentInOrder order qs.
Proof.
  unfold sentInOrder. induction order as [|j order IH]; intros Hi; simpl;
    [reflexivity|].
  rewrite IH by (intros H; apply Hi; now right). f_equal.
  assert (Hij : i <> j) by (intros ->; apply Hi; now left).
  assert (E := setNth_neq qs i j [] Hij).
  destruct (nth_error qs j) as [q|] eqn:Hq.
  - rewrite (nth_error_nth _ _ _ E). now rewrite (nth_error_nth _ _ _ Hq).
  - rewrite (nth_error_nth_None _ _ _ E).
    now rewrite (nth_error_nth_None _ _ _ Hq).
Qed.

Lemma sends_drain_all (order : list nat) :
  forall qs buffer,
    NoDup order ->
    (forall i, In i order -> i < List.length qs)%nat ->
    (Z.of_nat (List.length buffer + List.length (sentInOrder order qs))
     <= postChanCap)%Z ->
    sends (mkChan qs buffer)
          (mkChan (drained order qs) (buffer ++ sentInOrder order qs)).
Proof.
  induction order as [|i order IH]; intros qs buffer Hnodup Hrange Hroom.
  - unfold drained, sentInOrder. simpl. rewrite app_nil_r. constructor.
  - inversion Hnodup as [|? ? Hnotin Hnodup']; subst.
    assert (Hi : nth_error qs i = Some (nth i qs [])).
    { apply nth_error_nth'. apply Hrange. now left. }
    change (sentInOrder (i :: order) qs)
      with (nth i qs [] ++ sentInOrder order qs) in *.
    rewrite length_app in Hroom.
    eapply sends_trans.
    + apply (sends_drain (nth i qs []) qs buffer i Hi). lia.
    + rewrite app_assoc.
      rewrite <- (sentInOrder_unchanged order qs i Hnotin).
      change (drained (i :: order) qs) with (drained order (setNth i [] qs)).
      apply IH; trivial.
      * intros j Hj. rewrite setNth_length. apply Hrange. now right.
      * rewrite (sentInOrder_unchanged order qs i Hnotin), length_app. lia.
Qed.

Lemma drained_keeps_empty (order : list nat) :
  forall qs i, nth_error qs i = Some [] ->
               nth_error (drained order qs) i = Some [].
Proof.
  induction order as [|j order IH]; intros qs i Hi; [exact Hi|].
  change (drained (j :: order) qs) with (drained order (setNth j [] qs)).
  apply IH. destruct (Nat.eq_dec j i) as [->|Hji].
  - eapply setNth_eq. eassumption.
  - now rewrite setNth_neq.
Qed.

Lemma drained_empty (order : list nat) :
  forall qs i, In i order -> (i < List.length qs)%nat ->
               nth_error (drained order qs) i = Some [].
Proof.
  induction order as [|j order IH]; intros qs i Hin Hi; [contradiction|].
  change (drained (j :: order) qs) with (drained order (setNth j [] qs)).
  destruct (Nat.eq_dec j i) as [->|Hji].
  - apply drained_keeps_empty.
    destruct (nth_error qs i) as [q|] eqn:E.
    + eapply setNth_eq. eassumption.
    + apply nth_error_None in E. lia.
  - apply IH.
    + destruct Hin as [Hin|Hin]; [congruence|exact Hin].
    + now rewrite setNth_length.
Qed.

Lemma drained_length (order : list nat) :
  forall qs, List.length (drained order qs) = List.length qs.
Proof.
  induction order as [|j order IH]; intros qs; [reflexivity|].
  change (drained (j :: order) qs) with (drained order (setNth j [] qs)).
  now rewrite IH, setNth_length.
Qed.

Lemma sentInOrder_seq (qs : list (list Post)) :
  sentInOrder (seq 0 (List.length qs)) qs = List.concat qs.
Proof.
  unfold sentInOrder. induction qs as [|q qs IH]; [reflexivity|].
  simpl. f_equal. rewrite <- seq_shift, flat_map_concat_map, map_map.
  rewrite <- IH, flat_map_concat_map. reflexivity.
Qed.

(** X12: targets finish in no fixed order.  While the posts fit the
    channel's buffer, for every order of the goroutines [fetchAll] can
    return the posts of the targets one target after the other in that
    order; in particular in the order of the arguments. *)
Theorem fetchAll_any_order (feeds : list URL) (order : list nat) :
  (Z.of_nat (List.length (List.concat (map worker feeds))) <= postChanCap)%Z ->
  Permutation order (seq 0 (List.length feeds)) ->
  fetchAll feeds (sentInOrder order (map worker feeds))
  /\ fetchAll feeds (List.concat (map worker feeds)).
Proof.
  intros Hroom Hperm.
  assert (Hany : forall order', Permutation order' (seq 0 (List.length feeds)) ->
                  fetchAll feeds (sentInOrder order' (map worker feeds))).
  { clear order Hperm. intros order Hperm.
    assert (Hlen : List.length (map worker feeds) = List.length feeds)
      by apply length_map.
    assert (Hin : forall i, In i order <-> (i < List.length feeds)%nat).
    { intros i. split; intros H.
      - apply (Permutation_in _ Hperm), in_seq in H. lia.
      - apply (Permutation_in _ (Permutation_sym Hperm)), in_seq. lia. }
    exists (mkChan (drained order (map worker feeds))
                   (sentInOrder order (map worker feeds))).
    split; [|split; [|reflexivity]].
    - apply (sends_drain_all order (map worker feeds) []).
      + eapply Permutation_NoDup;
          [apply Permutation_sym; exact Hperm | apply seq_NoDup].
      + intros i Hi. rewrite Hlen. now apply Hin.
      + simpl. unfold sentInOrder.
        rewrite (Permutation_length
                   (Permutation_flat_map
                      (fun i => nth i (map worker feeds) []) Hperm)).
        fold (sentInOrder (seq 0 (List.length feeds)) (map worker feeds)).
        rewrite <- Hlen, sentInOrder_seq. exact Hroom.
    - unfold allDone. simpl. apply Forall_forall. intros q Hq.
      apply In_nth_error in Hq. destruct Hq as [i Hi].
      assert (Hi' : (i < List.length (drained order (map worker feeds)))%nat)
        by (apply nth_error_Some; congruence).
      rewrite drained_length, Hlen in Hi'.
      rewrite (drained_empty order (map worker feeds) i) in Hi.
      + now injection Hi as <-.
      + now apply Hin.
      + now rewrite Hlen. }
  split; [now apply Hany|].
  rewrite <- sentInOrder_seq, length_map. now apply Hany.
Qed.

(** X13: [fetchAll] returns exactly when the posts of all targets fit the
    channel's buffer of 10000; with one post more, a goroutine blocks on
    its send and [wg.Wait()] never returns. *)
Theorem fetchAll_returns_iff (feeds : list URL) :
  (exists posts, fetchAll feeds posts)
  <-> (Z.of_nat (List.length (List.concat (map worker feeds)))
       <= postChanCap)%Z.
Proof.
  split.
  - intros [posts H].
    destruct (Z.le_gt_cases
                (Z.of_nat (List.length (List.concat (map worker feeds))))
                postChanCap) as [Hle|Hgt]; [exact Hle|].
    exfalso. exact (fetchAll_blocks feeds Hgt posts H).
  - intros Hroom.
    destruct (sends_finish (List.length (pending (started feeds)))
                           (started feeds) eq_refl) as (st & Hsends & Hdone).
    + simpl. exact Hroom.
    + exists (postChan st), st. now repeat split.
Qed.

(** *** Feed Source Resolver: every result accounted for *)

Lemma parseLines_error (lines : list string) :
  forall urls err,
    parseLines lines urls = inr err ->
    exists l cause,
      err = ErrUrlParse l cause /\ In l lines /\ l <> EmptyString
      /\ url_Parse l = inr cause.
Proof.
  induction lines as [|l lines IH]; intros urls err H; simpl in H;
    [discriminate|].
  destruct (String.eqb_spec l EmptyString) as [E|NE].
  - destruct (IH _ _ H) as (l' & c & H1 & H2 & H3 & H4).
    exists l', c. repeat split; trivial. now right.
  - destruct (url_Parse l) as [u|cause] eqn:Hl.
    + destruct (IH _ _ H) as (l' & c & H1 & H2 & H3 & H4).
      exists l', c. repeat split; trivial. now right.
    + injection H as <-. exists l, cause. repeat split; trivial. now left.
Qed.

Lemma parseLines_urls (lines : list string) :
  forall urls0 urls,
    parseLines lines urls0 = inl urls ->
    exists parsed, urls = urls0 ++ parsed
                   /\ Forall2 parsesTo (filter nonEmpty lines) parsed.
Proof.
  induction lines as [|l lines IH]; intros urls0 urls H; simpl in *.
  - injection H as <-. exists []. split; [now rewrite app_nil_r|constructor].
  - unfold nonEmpty at 1. destruct (String.eqb l EmptyString); simpl.
    + now apply IH.
    + destruct (url_Parse l) as [u|cause] eqn:Hl; [|discriminate].
      destruct (IH _ _ H) as (parsed & -> & Hparsed).
      exists (u :: parsed). split; [now rewrite <- app_assoc|].
      now constructor.
Qed.

(** X14: every result of [parseFeedArg] is accounted for.  A list of
    addresses is either the one address of an argument that is not a
    regular file, or the addresses of the non-empty lines of the file, in
    order.  An error is either the argument's own parse error (only when
    it is not a regular file), or the error of reading the file, or the
    parse error of a non-empty line of the file, which it names. *)
Theorem parseFeedArg_results (feed : string) :
  (forall urls, parseFeedArg feed = inl urls ->
     ((os_Stat feed = StatNotExist \/ os_Stat feed = StatOk false)
      /\ exists u, url_Parse feed = inl u /\ urls = [u])
     \/ (os_Stat feed <> StatNotExist /\ os_Stat feed <> StatOk false
         /\ exists contents,
              ioutil_ReadFile feed = inl contents
              /\ Forall2 parsesTo
                         (filter nonEmpty (strings_Split contents newline))
                         urls))
  /\ (forall err, parseFeedArg feed = inr err ->
        ((os_Stat feed = StatNotExist \/ os_Stat feed = StatOk false)
         /\ exists cause, url_Parse feed = inr cause
                          /\ err = ErrNotFileUrlParse feed cause)
        \/ (os_Stat feed <> StatNotExist /\ os_Stat feed <> StatOk false
            /\ ((exists cause, ioutil_ReadFile feed = inr cause
                               /\ err = ErrReadFile feed cause)
                \/ exists contents l cause,
                     ioutil_ReadFile feed = inl contents
                     /\ In l (strings_Split contents newline)
                     /\ l <> EmptyString
                     /\ url_Parse l = inr cause
                     /\ err = ErrUrlParse l cause))).
Proof.
  unfold parseFeedArg.
  assert (Hfile : forall T : Prop,
             (os_Stat feed = StatNotExist \/ os_Stat feed = StatOk false -> T) ->
             (os_Stat feed <> StatNotExist -> os_Stat feed <> StatOk false -> T) ->
             T).
  { intros T H1 H2. destruct (os_Stat feed) as [|c|[|]];
      [apply H1; now left | apply H2; discriminate | apply H2; discriminate
       | apply H1; now right]. }
  split.
  - intros urls H. apply Hfile.
    + intros Hs. left. split; [exact Hs|].
      destruct Hs as [Hs|Hs]; rewrite Hs in H;
        (destruct (url_Parse feed) as [u|c]; [|discriminate]);
        injection H as <-; now exists u.
    + intros N1 N2. right. split; [exact N1|]. split; [exact N2|].
      destruct (os_Stat feed) as [|c|[|]]; try congruence;
        (destruct (ioutil_ReadFile feed) as [contents|c'];
         [|discriminate]);
        exists contents; (split; [reflexivity|]);
        destruct (parseLines_urls _ _ _ H) as (parsed & -> & Hp); exact Hp.
  - intros err H. apply Hfile.
    + intros Hs. left. split; [exact Hs|].
      destruct Hs as [Hs|Hs]; rewrite Hs in H;
        (destruct (url_Parse feed) as [u|c]; [discriminate|]);
        injection H as <-; now exists c.
    + intros N1 N2. right. split; [exact N1|]. split; [exact N2|].
      destruct (os_Stat feed) as [|c|[|]]; try congruence;
        (destruct (ioutil_ReadFile feed) as [contents|c'];
         [|left; injection H as <-; now exists c']);
        right; destruct (parseLines_error _ _ _ H) as (l & cause & H1 & H2 & H3 & H4);
        exists contents, l, cause; now repeat split.
Qed.

(** *** main: the arguments in order *)

(** X15: the loop of [main] resolves the arguments in order: it gives the
    addresses of all arguments, one argument after the other, exactly
    when every argument resolves; and it stops with an argument and its
    error exactly when that is the first argument that does not resolve. *)
Theorem parseFeedArgs_in_order (feedsList : list string) :
  forall feeds0,
    (forall feeds,
        parseFeedArgs feedsList feeds0 = inl feeds
        <-> exists resolved,
              Forall2 (fun f urls => parseFeedArg f = inl urls)
                      feedsList resolved
              /\ feeds = feeds0 ++ List.concat resolved)
    /\ (forall f err,
          parseFeedArgs feedsList feeds0 = inr (f, err)
          <-> exists before after,
                feedsList = before ++ f :: after
                /\ Forall (fun g => exists urls, parseFeedArg g = inl urls)
                          before
                /\ parseFeedArg f = inr err).
Proof.
  induction feedsList as [|g rest IH]; intros feeds0; simpl.
  - split.
    + intros feeds. split.
      * intros H. injection H as <-. exists [].
        split; [constructor|now rewrite app_nil_r].
      * intros (resolved & H & ->). inversion H. simpl.
        now rewrite app_nil_r.
    + intros f err. split; [discriminate|].
      intros (before & after & H & _). now destruct before.
  - destruct (parseFeedArg g) as [urls|e] eqn:Hg.
    + destruct (IH (feeds0 ++ urls)) as [IH1 IH2]. split.
      * intros feeds. rewrite IH1. split.
        -- intros (resolved & H & ->). exists (urls :: resolved).
           split; [now constructor|]. simpl. now rewrite app_assoc.
        -- intros (resolved & H & ->).
           inversion H as [|? urls' ? resolved' Hg' Hrest]; subst.
           rewrite Hg in Hg'. injection Hg' as <-.
           exists resolved'. split; [exact Hrest|].
           simpl. now rewrite app_assoc.
      * intros f err. rewrite IH2. split.
        -- intros (before & after & -> & Hb & Hf).
           exists (g :: before), after. repeat split; trivial.
           constructor; [now exists urls|exact Hb].
        -- intros (before & after & E & Hb & Hf).
           destruct before as [|g' before]; simpl in E.
           ++ injection E as <- <-. congruence.
           ++ injection E as <- ->. inversion Hb; subst.
              now exists before, after.
    + split.
      * intros feeds. split; [discriminate|].
        intros (resolved & H & _). inversion H; subst. congruence.
      * intros f err. split.
        -- intros H. injection H as <- <-. exists [], rest.
           repeat split; trivial.
        -- intros (before & after & E & Hb & Hf).
           destruct before as [|g' before]; simpl in E.
           ++ injection E as <- <-. congruence.
           ++ injection E as <- ->. inversion Hb as [|? ? [urls Hu] ?]; subst.
              congruence.
Qed.

(** Which runs of [main] end with exit code 0. *)
Lemma main_exit_code (feedsList : list string) (o : Outcome) :
  main feedsList o ->
  (exitCode o = 0%Z
   <-> hd_error feedsList = Some "version"
       \/ (feedsList <> []
           /\ (exists feeds, parseFeedArgs feedsList [] = inl feeds)
           /\ (web = true -> ioutil_TempFile = true))).
Proof.
  intros H. destruct H as [|rest|l f err Hne Hv Hbad|l feeds posts Hne Hv Hok
                           Hfetch Hweb Htmp|l feeds posts Hne Hv Hok Hfetch
                           Htmp]; simpl.
  - split; [discriminate|]. intros [H|[H _]]; [discriminate|congruence].
  - split; [now left|reflexivity].
  - split; [discriminate|]. intros [H|(_ & [feeds H] & _)].
    + destruct l; [congruence|]. simpl in *. congruence.
    + congruence.
  - split; [discriminate|]. intros [H|(_ & _ & H)].
    + destruct l; [congruence|]. simpl in *. congruence.
    + specialize (H Hweb). congruence.
  - split; [|reflexivity]. intros _. right.
    split; [exact Hne|]. split; [now exists feeds|exact Htmp].
Qed.

(** Which runs of [main] end: all but those whose goroutines fill the
    channel of [fetchAll]. *)
Lemma main_ends_iff (feedsList : list string) :
  (exists o, main feedsList o)
  <-> forall feeds,
        feedsList <> [] -> hd EmptyString feedsList <> "version" ->
        parseFeedArgs feedsList [] = inl feeds ->
        (Z.of_nat (List.length (List.concat (map worker feeds)))
         <= postChanCap)%Z.
Proof.
  split.
  - intros [o H] feeds Hne Hv Hok.
    destruct (Z.le_gt_cases
                (Z.of_nat (List.length (List.concat (map worker feeds))))
                postChanCap) as [Hle|Hgt]; [exact Hle|].
    exfalso.
    destruct H as [|rest|l f err _ _ Hbad|l feeds' posts _ _ Hok' Hfetch _ _
                   |l feeds' posts _ _ Hok' Hfetch _].
    + now apply Hne.
    + now apply Hv.
    + congruence.
    + rewrite Hok in Hok'. injection Hok' as <-.
      exact (fetchAll_blocks feeds Hgt posts Hfetch).
    + rewrite Hok in Hok'. injection Hok' as <-.
      exact (fetchAll_blocks feeds Hgt posts Hfetch).
  - intros Hroom.
    destruct feedsList as [|f rest] eqn:El; [exists NoFeedProvided; constructor|].
    destruct (string_dec f "version") as [->|Hv];
      [exists Version; constructor|].
    rewrite <- El in *.
    assert (Hne : feedsList <> []) by (rewrite El; discriminate).
    assert (Hhd : hd EmptyString feedsList <> "version") by now rewrite El.
    destruct (parseFeedArgs feedsList []) as [feeds|[g err]] eqn:Hok.
    + specialize (Hroom feeds Hne Hhd eq_refl).
      destruct (sends_finish (List.length (pending (started feeds)))
                             (started feeds) eq_refl)
        as (st & Hsends & Hdone); [exact Hroom|].
      assert (Hfetch : fetchAll feeds (postChan st))
        by (exists st; now repeat split).
      destruct web eqn:Hweb, ioutil_TempFile eqn:Htmp.
      * eexists. eapply main_render; eauto.
      * exists TempFileFailed. eapply main_temp_file; eauto.
      * eexists. eapply main_render; eauto.
      * eexists. eapply main_render; eauto. rewrite Hweb. discriminate.
    + exists (BadArgument g err). now constructor.
Qed.

(** X4: when the posts of the targets have pairwise different instants, a
    run of [main] has at most one possible outcome: the goroutines may
    deliver the posts in any order, the rendered grouping is the same.
    When the posts also fit the buffer of the channel, the run ends and
    has exactly that one outcome. *)
Theorem main_deterministic (feedsList : list string) :
  (forall feeds,
      parseFeedArgs feedsList [] = inl feeds ->
      NoDup (map instant (List.concat (map worker feeds)))) ->
  (forall o1 o2, main feedsList o1 -> main feedsList o2 -> o1 = o2)
  /\ ((forall feeds,
         parseFeedArgs feedsList [] = inl feeds ->
         (Z.of_nat (List.length (List.concat (map worker feeds)))
          <= postChanCap)%Z) ->
      exists o, main feedsList o /\ forall o', main feedsList o' -> o' = o).
Proof.
  intros Hnodup.
  assert (Hone : forall o1 o2,
             main feedsList o1 -> main feedsList o2 -> o1 = o2).
  { intros o1 o2 H1 H2.
    assert (Hposts : forall feeds posts,
               parseFeedArgs feedsList [] = inl feeds ->
               fetchAll feeds posts ->
               Permutation posts (List.concat (map worker feeds))).
    { intros feeds posts _ (st & Hsends & Hdone & ->).
      assert (Hperm := sends_perm _ _ Hsends).
      now rewrite (allDone_pending st Hdone), app_nil_r in Hperm. }
    destruct H1 as [|rest|l f err Hne Hv Hbad|l feeds posts Hne Hv Hok
                    Hfetch Hweb Htmp|l feeds posts Hne Hv Hok Hfetch Htmp];
      inversion H2 as [|rest'|l' f' err' Hne' Hv' Hbad'|l' feeds' posts' Hne'
                       Hv' Hok' Hfetch' Hweb' Htmp'|l' feeds' posts' Hne' Hv'
                       Hok' Hfetch' Htmp']; subst;
      try reflexivity; try congruence;
      try (simpl in *; congruence).
    - specialize (Htmp' Hweb). congruence.
    - specialize (Htmp Hweb'). congruence.
    - f_equal. rewrite Hok in Hok'. injection Hok' as <-.
      assert (P1 := Hposts feeds posts Hok Hfetch).
      assert (P2 := Hposts feeds posts' Hok Hfetch').
      apply groupByDate_order_independent_aux.
      + eapply Permutation_NoDup;
          [apply Permutation_map, Permutation_sym; exact P1|].
        now apply Hnodup.
      + now rewrite P1, P2. }
  split; [exact Hone|].
  intros Hroom.
  destruct (proj2 (main_ends_iff feedsList)) as [o Ho].
  - intros feeds _ _. apply Hroom.
  - exists o. split; [exact Ho|]. intros o' Ho'. exact (Hone o' o Ho' Ho).
Qed.

(** *** The patterns of extractFeedLink *)

Lemma append_nil_r (s : string) : (s ++ EmptyString)%string = s.
Proof. induction s as [|c s IH]; simpl; [reflexivity|]. now rewrite IH. Qed.

Lemma length_append (a b : string) :
  String.length (a ++ b) = (String.length a + String.length b)%nat.
Proof. induction a as [|c a IH]; simpl; [reflexivity|]. now rewrite IH. Qed.

Lemma substring_append (w r : string) :
  substring 0 (String.length (w ++ r) - String.length r) (w ++ r) = w.
Proof.
  rewrite length_append.
  replace (String.length w + String.length r - String.length r)%nat
    with (String.length w) by lia.
  induction w as [|c w IH]; simpl.
  - now destruct r.
  - now rewrite IH.
Qed.

Lemma stripPrefix_Some (p : string) :
  forall s s', Regexp.stripPrefix p s = Some s' <-> s = (p ++ s')%string.
Proof.
  induction p as [|a p IH]; intros s s'; simpl.
  - split; [now intros [= ->] | now intros ->].
  - destruct s as [|b s]; [split; discriminate|].
    destruct (Ascii.eqb_spec a b) as [->|NE].
    + rewrite IH. split; [now intros ->|now intros [= ->]].
    + split; [discriminate|]. intros [= E _]. congruence.
Qed.

Lemma star_sound {X : Type} (cls : ascii -> bool) (k : string -> option X) :
  forall s w x,
    Regexp.star cls k s = Some (w, x) ->
    exists r, s = (w ++ r)%string /\ every cls w = true /\ k r = Some x.
Proof.
  induction s as [|c s IH]; intros w x H; simpl in H.
  - destruct (k EmptyString) as [x'|] eqn:E; [|discriminate].
    injection H as <- <-. now exists EmptyString.
  - assert (Hhere : option_map (pair EmptyString) (k (String c s))
                    = Some (w, x) ->
                    exists r, String c s = (w ++ r)%string
                              /\ every cls w = true /\ k r = Some x).
    { intros H'. destruct (k (String c s)) as [x'|] eqn:E; [|discriminate].
      injection H' as <- <-. now exists (String c s). }
    destruct (cls c) eqn:Hc; [|now apply Hhere].
    destruct (Regexp.star cls k s) as [[w' x']|] eqn:Hs; [|now apply Hhere].
    injection H as <- <-.
    destruct (IH w' x' eq_refl) as (r & -> & Hw & Hk).
    exists r. simpl. now rewrite Hc, Hw.
Qed.

Lemma star_complete {X : Type} (cls : ascii -> bool) (k : string -> option X) :
  forall w r x,
    every cls w = true -> k r = Some x ->
    exists w' x', Regexp.star cls k (w ++ r) = Some (w', x').
Proof.
  induction w as [|c w IH]; intros r x Hw Hk; simpl.
  - destruct r as [|c r]; simpl.
    + rewrite Hk. now eexists _, _.
    + destruct (cls c).
      * destruct (Regexp.star cls k r) as [[w' x']|]; [now eexists _, _|].
        rewrite Hk. now eexists _, _.
      * rewrite Hk. now eexists _, _.
  - simpl in Hw. apply andb_true_iff in Hw. destruct Hw as [Hc Hw].
    rewrite Hc. destruct (IH r x Hw Hk) as (w' & x' & ->).
    now eexists _, _.
Qed.

Lemma matchHere_sound (re : Regexp.regexp) :
  forall s caps rest,
    Regexp.matchHere re s = Some (caps, rest) -> accepts re s caps rest.
Proof.
  induction re as [|[l|cls|cls] re IH]; intros s caps rest H; simpl in *.
  - now injection H as <- <-.
  - destruct (Regexp.stripPrefix l s) as [s'|] eqn:E; [|discriminate].
    apply stripPrefix_Some in E. exists s'. split; [exact E|now apply IH].
  - destruct (Regexp.star cls (Regexp.matchHere re) s) as [[w r]|] eqn:E;
      [|discriminate].
    injection H as ->.
    destruct (star_sound _ _ _ _ _ E) as (s' & -> & Hw & Hk).
    exists w, s'. repeat split; trivial. now apply IH.
  - destruct (Regexp.star cls (Regexp.matchHere re) s) as [[w [caps' r]]|] eqn:E;
      [|discriminate].
    injection H as <- <-.
    destruct (star_sound _ _ _ _ _ E) as (s' & -> & Hw & Hk).
    exists w, s', caps'. repeat split; trivial. now apply IH.
Qed.

Lemma matchHere_complete (re : Regexp.regexp) :
  forall s caps rest,
    accepts re s caps rest -> Regexp.matchHere re s <> None.
Proof.
  induction re as [|[l|cls|cls] re IH]; intros s caps rest H; simpl in *.
  - discriminate.
  - destruct H as (s' & -> & H).
    rewrite (proj2 (stripPrefix_Some l _ s') eq_refl). eapply IH, H.
  - destruct H as (w & s' & -> & Hw & H).
    destruct (Regexp.matchHere re s') as [x|] eqn:E;
      [|exfalso; eapply IH; eassumption].
    destruct (star_complete cls (Regexp.matchHere re) w s' x Hw E)
      as (w' & x' & ->).
    discriminate.
  - destruct H as (w & s' & caps' & -> & Hw & _ & H).
    destruct (Regexp.matchHere re s') as [x|] eqn:E;
      [|exfalso; eapply IH; eassumption].
    destruct (star_complete cls (Regexp.matchHere re) w s' x Hw E)
      as (w' & [caps1 rest1] & ->).
    discriminate.
Qed.

(** What a pattern describes ends where the rest begins. *)
Lemma accepts_whole (re : Regexp.regexp) :
  forall s caps rest,
    accepts re s caps rest ->
    exists w, s = (w ++ rest)%string /\ accepts re w caps EmptyString.
Proof.
  induction re as [|[l|cls|cls] re IH]; intros s caps rest H; simpl in *.
  - destruct H as [-> ->]. now exists EmptyString.
  - destruct H as (s' & -> & H). destruct (IH _ _ _ H) as (w & -> & Hw).
    exists (l ++ w)%string. split; [now rewrite append_assoc|].
    now exists w.
  - destruct H as (v & s' & -> & Hv & H).
    destruct (IH _ _ _ H) as (w & -> & Hw).
    exists (v ++ w)%string. split; [now rewrite append_assoc|].
    now exists v, w.
  - destruct H as (v & s' & caps' & -> & Hv & -> & H).
    destruct (IH _ _ _ H) as (w & -> & Hw).
    exists (v ++ w)%string. split; [now rewrite append_assoc|].
    now exists v, w, caps'.
Qed.

Lemma accepts_frame (re : Regexp.regexp) (after : string) :
  forall w caps,
    accepts re w caps EmptyString ->
    accepts re (w ++ after) caps after.
Proof.
  induction re as [|[l|cls|cls] re IH]; intros w caps H; simpl in *.
  - destruct H as [-> ->]. now split.
  - destruct H as (s' & -> & H). exists (s' ++ after)%string.
    split; [now rewrite append_assoc|]. now apply IH.
  - destruct H as (v & s' & -> & Hv & H).
    exists v, (s' ++ after)%string.
    split; [now rewrite append_assoc|]. split; [exact Hv|]. now apply IH.
  - destruct H as (v & s' & caps' & -> & Hv & -> & H).
    exists v, (s' ++ after)%string, caps'.
    split; [now rewrite append_assoc|]. split; [exact Hv|].
    split; [reflexivity|]. now apply IH.
Qed.

Lemma matchHere_whole (re : Regexp.regexp) (s rest : string)
      (caps : list string) :
  Regexp.matchHere re s = Some (caps, rest) ->
  s = (substring 0 (String.length s - String.length rest) s ++ rest)%string
  /\ accepts re (substring 0 (String.length s - String.length rest) s)
             caps EmptyString.
Proof.
  intros E.
  destruct (accepts_whole _ _ _ _ (matchHere_sound _ _ _ _ E))
    as (w & -> & Hacc).
  rewrite substring_append. now split.
Qed.

Lemma FindStringSubmatch_sound (re : Regexp.regexp) :
  forall s whole caps,
    Regexp.FindStringSubmatch re s = whole :: caps ->
    exists before after,
      s = (before ++ whole ++ after)%string
      /\ accepts re whole caps EmptyString
      /\ forall p t, s = (p ++ t)%string ->
                     (String.length p < String.length before)%nat ->
                     Regexp.matchHere re t = None.
Proof.
  assert (Hhere : forall s whole caps caps' rest,
             Regexp.matchHere re s = Some (caps', rest) ->
             substring 0 (String.length s - String.length rest) s :: caps'
             = whole :: caps ->
             exists before after,
               s = (before ++ whole ++ after)%string
               /\ accepts re whole caps EmptyString
               /\ forall p t, s = (p ++ t)%string ->
                              (String.length p < String.length before)%nat ->
                              Regexp.matchHere re t = None).
  { intros s whole caps caps' rest E H.
    destruct (matchHere_whole _ _ _ _ E) as [Hs Hacc].
    injection H as Hw <-. rewrite Hw in Hs, Hacc.
    exists EmptyString, rest. repeat split; trivial.
    simpl. intros p t _ Hp. lia. }
  induction s as [|c s IH]; intros whole caps H.
  - cbn [Regexp.FindStringSubmatch] in H.
    destruct (Regexp.matchHere re EmptyString) as [[caps' rest]|] eqn:E;
      [|discriminate].
    eapply Hhere; eassumption.
  - cbn [Regexp.FindStringSubmatch] in H.
    destruct (Regexp.matchHere re (String c s)) as [[caps' rest]|] eqn:E.
    + eapply Hhere; eassumption.
    + destruct (IH _ _ H) as (before & after & -> & Hacc & Hleft).
      exists (String c before), after. repeat split; trivial.
      intros p t Hpt Hp. destruct p as [|c' p]; simpl in *.
      * now subst t.
      * injection Hpt as <- Hpt. apply (Hleft p t Hpt). lia.
Qed.

Lemma FindStringSubmatch_complete (re : Regexp.regexp) :
  forall before s caps rest,
    accepts re s caps rest ->
    exists whole caps',
      Regexp.FindStringSubmatch re (before ++ s) = whole :: caps'.
Proof.
  assert (Hhere : forall s caps rest,
             accepts re s caps rest ->
             exists whole caps',
               Regexp.FindStringSubmatch re s = whole :: caps').
  { intros s caps rest H. apply matchHere_complete in H.
    destruct s as [|c s]; cbn [Regexp.FindStringSubmatch];
      (destruct (Regexp.matchHere re _) as [[caps' rest']|];
       [now eexists _, _|congruence]). }
  induction before as [|c before IH]; intros s caps rest H.
  - eapply Hhere, H.
  - change (String c before ++ s)%string with (String c (before ++ s)).
    cbn [Regexp.FindStringSubmatch].
    destruct (Regexp.matchHere re (String c (before ++ s)))
      as [[caps' rest']|]; [now eexists _, _|].
    eapply IH, H.
Qed.

Lemma accepts_linkRegexp (mime whole : string) (caps : list string) :
  accepts (linkRegexp mime) whole caps EmptyString
  <-> exists ws a b href,
        caps = [href] /\ whole = linkText mime ws a b href
        /\ every Regexp.space ws = true /\ every Regexp.dot a = true
        /\ every Regexp.dot b = true /\ every Regexp.notQuote href = true.
Proof.
  unfold linkRegexp, linkText. cbn [accepts]. split.
  - intros (ws & s1 & -> & Hws & s2 & -> & a & s3 & -> & Ha & s4 & -> &
            b & s5 & -> & Hb & s6 & -> & href & s7 & caps' & -> & Hhref &
            -> & s8 & -> & -> & ->).
    exists ws, a, b, href. rewrite append_nil_r. now repeat split.
  - intros (ws & a & b & href & -> & -> & Hws & Ha & Hb & Hhref).
    eexists ws, _. split; [reflexivity|]. split; [exact Hws|].
    eexists. split; [reflexivity|].
    eexists a, _. split; [reflexivity|]. split; [exact Ha|].
    eexists. split; [reflexivity|].
    eexists b, _. split; [reflexivity|]. split; [exact Hb|].
    eexists. split; [reflexivity|].
    eexists href, _, []. split; [reflexivity|]. split; [exact Hhref|].
    split; [reflexivity|].
    exists EmptyString. now rewrite append_nil_r.
Qed.

Lemma linkRegexp_match_aux (mime contents whole : string) (more : list string) :
  Regexp.FindStringSubmatch (linkRegexp mime) contents = whole :: more ->
  exists href, more = [href] /\ every Regexp.notQuote href = true.
Proof.
  intros H.
  destruct (FindStringSubmatch_sound _ _ _ _ H) as (_ & _ & _ & Hacc & _).
  apply accepts_linkRegexp in Hacc.
  destruct Hacc as (ws & a & b & href & -> & _ & _ & _ & _ & Hhref).
  now exists href.
Qed.

(** X8: what a pattern of [extractFeedLink] finds.  A match is a piece of
    the page that reads: white space, [<link], text without a newline,
    [type=] and the quoted type, text without a newline, [href=], and a
    quoted target without a quote in it, which is the one group; and no
    such piece starts earlier in the page.  So the type has to come
    before the target, on the target's line. *)
Theorem linkRegexp_match (mime contents whole : string) (more : list string) :
  Regexp.FindStringSubmatch (linkRegexp mime) contents = whole :: more ->
  exists before after ws a b href,
    more = [href]
    /\ contents = (before ++ whole ++ after)%string
    /\ whole = linkText mime ws a b href
    /\ every Regexp.space ws = true /\ every Regexp.dot a = true
    /\ every Regexp.dot b = true /\ every Regexp.notQuote href = true
    /\ forall before' ws' a' b' href' after',
         every Regexp.space ws' = true -> every Regexp.dot a' = true ->
         every Regexp.dot b' = true -> every Regexp.notQuote href' = true ->
         contents = (before' ++ linkText mime ws' a' b' href' ++ after')%string ->
         (String.length before <= String.length before')%nat.
Proof.
  intros H.
  destruct (FindStringSubmatch_sound _ _ _ _ H)
    as (before & after & Hs & Hacc & Hleft).
  apply accepts_linkRegexp in Hacc.
  destruct Hacc as (ws & a & b & href & -> & Hw & Hws & Ha & Hb & Hhref).
  exists before, after, ws, a, b, href. repeat split; trivial.
  intros before' ws' a' b' href' after' E1 E2 E3 E4 Hpt.
  destruct (Nat.le_gt_cases (String.length before) (String.length before'))
    as [Hle|Hgt]; [exact Hle|].
  exfalso. specialize (Hleft before' _ Hpt Hgt).
  assert (Hacc : accepts (linkRegexp mime)
                   (linkText mime ws' a' b' href' ++ after') [href'] after').
  { apply accepts_frame, accepts_linkRegexp. now exists ws', a', b', href'. }
  apply matchHere_complete in Hacc. congruence.
Qed.

(** X9: what a pattern of [extractFeedLink] does not miss.  On a page that
    holds a piece of that form anywhere, the pattern matches, with one
    group: the loop of [extractFeedLink] gets a target from it. *)
Theorem linkRegexp_finds (mime before ws a b href after : string) :
  every Regexp.space ws = true -> every Regexp.dot a = true ->
  every Regexp.dot b = true -> every Regexp.notQuote href = true ->
  exists whole href',
    Regexp.FindStringSubmatch (linkRegexp mime)
      (before ++ linkText mime ws a b href ++ after)
    = [whole; href']
    /\ every Regexp.notQuote href' = true.
Proof.
  intros Hws Ha Hb Hhref.
  assert (Hacc : accepts (linkRegexp mime)
                   (linkText mime ws a b href ++ after) [href] after).
  { apply accepts_frame, accepts_linkRegexp. now exists ws, a, b, href. }
  destruct (FindStringSubmatch_complete _ before _ _ _ Hacc)
    as (whole & caps' & Hfind).
  destruct (linkRegexp_match_aux _ _ _ _ Hfind) as (href' & -> & Hq).
  now exists whole, href'.
Qed.

(** *** extractFeedLink: which tag decides *)











(** X10: what [extractFeedLink] returns.  An address comes from the
    target that one of the two patterns captured, which has no quote in
    it: a target that starts with a slash replaces the path of the page's
    address, whose scheme, host, query and fragment are kept; any other
    target is the address that [url.Parse] makes of it.  A page without
    the text [<link] gives no address. *)
Theorem extractFeedLink_result (baseUrl : URL) (contents : string) :
  (forall u, extractFeedLink baseUrl contents = Some u ->
     exists mime whole href,
       In (linkRegexp mime) regexes
       /\ Regexp.FindStringSubmatch (linkRegexp mime) contents = [whole; href]
       /\ every Regexp.notQuote href = true
       /\ ((strings_HasPrefix href "/" = true
            /\ u = withPath baseUrl href
            /\ Path u = href /\ Scheme u = Scheme baseUrl
            /\ Host u = Host baseUrl /\ RawQuery u = RawQuery baseUrl
            /\ Fragment u = Fragment baseUrl)
           \/ (strings_HasPrefix href "/" = false
               /\ url_Parse href = inl u)))
  /\ ((forall before after, contents <> (before ++ "<link" ++ after)%string) ->
      extractFeedLink baseUrl contents = None).
Proof.
  assert (Hstep : forall mime rest u,
             extractFeedLink_loop baseUrl contents (linkRegexp mime :: rest)
             = Some u ->
             (exists whole href,
                 Regexp.FindStringSubmatch (linkRegexp mime) contents
                 = [whole; href]
                 /\ every Regexp.notQuote href = true
                 /\ ((strings_HasPrefix href "/" = true
                      /\ u = withPath baseUrl href)
                     \/ (strings_HasPrefix href "/" = false
                         /\ url_Parse href = inl u)))
             \/ extractFeedLink_loop baseUrl contents rest = Some u).
  { intros mime rest u H. cbn [extractFeedLink_loop] in H.
    destruct (Regexp.FindStringSubmatch (linkRegexp mime) contents)
      as [|whole more] eqn:Hfind; [now right|].
    destruct (linkRegexp_match_aux _ _ _ _ Hfind) as (href & -> & Hq).
    destruct (strings_HasPrefix href "/") eqn:Hp.
    - injection H as <-. left. exists whole, href. repeat split; trivial.
      now left.
    - destruct (url_Parse href) as [u'|c] eqn:Hu; [|now right].
      injection H as <-. left. exists whole, href. repeat split; trivial.
      now right. }
  split.
  - intros u H. unfold extractFeedLink, regexes in H.
    assert (Hshape : forall mime,
               (exists whole href,
                   Regexp.FindStringSubmatch (linkRegexp mime) contents
                   = [whole; href]
                   /\ every Regexp.notQuote href = true
                   /\ ((strings_HasPrefix href "/" = true
                        /\ u = withPath baseUrl href)
                       \/ (strings_HasPrefix href "/" = false
                           /\ url_Parse href = inl u))) ->
               In (linkRegexp mime) regexes ->
               exists mime whole href,
                 In (linkRegexp mime) regexes
                 /\ Regexp.FindStringSubmatch (linkRegexp mime) contents
                    = [whole; href]
                 /\ every Regexp.notQuote href = true
                 /\ ((strings_HasPrefix href "/" = true
                      /\ u = withPath baseUrl href
                      /\ Path u = href /\ Scheme u = Scheme baseUrl
                      /\ Host u = Host baseUrl
                      /\ RawQuery u = RawQuery baseUrl
                      /\ Fragment u = Fragment baseUrl)
                     \/ (strings_HasPrefix href "/" = false
                         /\ url_Parse href = inl u))).
    { intros mime (whole & href & Hfind & Hq & Hcase) Hin.
      exists mime, whole, href. repeat split; trivial.
      destruct Hcase as [[Hp ->]|Hcase]; [left|now right].
      now repeat split. }
    destruct (Hstep _ _ _ H) as [H1|H1].
    + apply (Hshape _ H1). now left.
    + destruct (Hstep _ _ _ H1) as [H2|H2]; [|discriminate].
      apply (Hshape _ H2). right. now left.
  - intros Hnone.
    assert (Hno : forall mime,
               Regexp.FindStringSubmatch (linkRegexp mime) contents = []).
    { intros mime.
      destruct (Regexp.FindStringSubmatch (linkRegexp mime) contents)
        as [|whole more] eqn:Hfind; [reflexivity|].
      exfalso.
      destruct (FindStringSubmatch_sound _ _ _ _ Hfind)
        as (before & after & Hc & Hacc & _).
      apply accepts_linkRegexp in Hacc.
      destruct Hacc as (ws & a & b & href & _ & Hw & _).
      apply (Hnone (before ++ ws)%string
                   (a ++ ("type=" ++ dquote ++ mime) ++ b
                      ++ ("href=" ++ dquote) ++ href ++ dquote ++ after)%string).
      rewrite Hc, Hw. unfold linkText.
      repeat rewrite append_assoc. reflexivity. }
    unfold extractFeedLink, regexes. cbn [extractFeedLink_loop].
    now rewrite !Hno.
Qed.

(** *** Rendering *)

Lemma renderGroup_tail (df : string) (group : list Post) :
  forall i, renderGroup df (S i) group = flat_map renderPost group.
Proof.
  induction group as [|p group IH]; intros i; simpl; [reflexivity|].
  now rewrite IH.
Qed.

Lemma renderGroup_head (df : string) (group : list Post) :
  renderGroup df 0 group
  = match group with
    | [] => []
    | p :: _ => (label df p ++ endl)%string :: flat_map renderPost group
    end.
Proof.
  destruct group as [|p group]; [reflexivity|].
  simpl. now rewrite renderGroup_tail.
Qed.

Lemma renderHtmlGroup_tail (df : string) (group : list Post) :
  forall i, renderHtmlGroup df (S i) group = map htmlPost group.
Proof.
  induction group as [|p group IH]; intros i; simpl; [reflexivity|].
  now rewrite IH.
Qed.

Lemma renderPost_length (l : list Post) :
  List.length (flat_map renderPost l)
  = (List.length l + List.length (filter longTitle l))%nat.
Proof.
  induction l as [|p l IH]; simpl; [reflexivity|].
  rewrite length_app, IH. unfold renderPost.
  destruct (longTitle p); simpl; lia.
Qed.

(** The writes of the loops over the buckets: one header for every
    non-empty bucket, and the writes of the posts. *)
Lemma render_buckets_length (df : string) (grouped : list (list Post)) :
  List.length (flat_map (renderGroup df 0) grouped)
  = (List.length (bucketLabels df grouped)
     + List.length (flat_map renderPost (List.concat grouped)))%nat.
Proof.
  induction grouped as [|b grouped IH]; simpl; [reflexivity|].
  rewrite !length_app, IH, renderGroup_head, flat_map_app, length_app.
  destruct b as [|p b]; simpl; lia.
Qed.

Lemma renderHtml_buckets_length (df : string) (grouped : list (list Post)) :
  List.length (flat_map (renderHtmlGroup df 0) grouped)
  = (List.length (bucketLabels df grouped)
     + List.length (List.concat grouped))%nat.
Proof.
  induction grouped as [|b grouped IH]; simpl; [reflexivity|].
  rewrite !length_app, IH.
  destruct b as [|p b]; simpl; [reflexivity|].
  rewrite renderHtmlGroup_tail, length_map. lia.
Qed.

(** X16: the text listing.  With no post [render] writes nothing, the
    empty first bucket of [groupByDate] included.  Otherwise it writes
    one header for every bucket that has a post, one line for every post,
    and one more line for every post whose title is longer than 70
    bytes; and the line that ends a post's entry ends with its link. *)
Theorem render_writes (posts : list Post) (dateFormat : string) :
  render [] dateFormat = []
  /\ List.length (render posts dateFormat)
     = (List.length (bucketLabels dateFormat (groupByDate posts dateFormat))
        + List.length posts + List.length (filter longTitle posts))%nat
  /\ forall p, In p posts ->
       exists before, In (before ++ Link p ++ endl)%string
                         (render posts dateFormat).
Proof.
  split; [|split].
  - unfold render. now rewrite groupByDate_nil.
  - unfold render. rewrite render_buckets_length, groupByDate_concat.
    assert (Hperm := sort_Sort_perm posts).
    rewrite (Permutation_length (Permutation_flat_map renderPost Hperm)).
    rewrite renderPost_length. lia.
  - intros p Hp.
    assert (Hlast : exists before,
               In (before ++ Link p ++ endl)%string (renderPost p)).
    { unfold renderPost. destruct (longTitle p).
      - exists ("    " ++ spaces 70 ++ " ")%string. right. left.
        now rewrite !append_assoc.
      - exists ("    " ++ Title p
                  ++ spaces (70 - utf8_RuneCountInString (Title p))
                  ++ " ")%string.
        left. now rewrite !append_assoc. }
    destruct Hlast as [before Hlast]. exists before.
    assert (Hin : In p (List.concat (groupByDate posts dateFormat))).
    { rewrite groupByDate_concat.
      eapply Permutation_in; [apply Permutation_sym, sort_Sort_perm|exact Hp]. }
    apply in_concat in Hin. destruct Hin as (b & Hb & Hpb).
    unfold render. apply in_flat_map. exists b. split; [exact Hb|].
    rewrite renderGroup_head. destruct b as [|q b]; [contradiction|].
    right. apply in_flat_map. now exists p.
Qed.

Lemma spaces_length (n : nat) : String.length (spaces n) = n.
Proof. induction n as [|n IH]; simpl; [reflexivity|]. now rewrite IH. Qed.

(** X17: the links of the text listing are aligned.  In the last line of
    a post's entry the link is followed only by the newline; 75 bytes
    come before it when the title is longer than 70 bytes, and also when
    the title is shorter and has as many runes as bytes. *)
Theorem render_link_column (p : Post) :
  exists before,
    last (renderPost p) EmptyString = (before ++ Link p ++ endl)%string
    /\ (longTitle p = true
        \/ utf8_RuneCountInString (Title p) = String.length (Title p) ->
        String.length before = 75%nat).
Proof.
  unfold renderPost. destruct (longTitle p) eqn:Hlong.
  - exists ("    " ++ spaces 70 ++ " ")%string. split.
    + cbn [last]. now rewrite !append_assoc.
    + intros _. rewrite !length_append, spaces_length. reflexivity.
  - exists ("    " ++ Title p
              ++ spaces (70 - utf8_RuneCountInString (Title p))
              ++ " ")%string.
    split.
    + cbn [last]. now rewrite !append_assoc.
    + intros [H|H]; [discriminate|].
      rewrite !length_append, spaces_length, H.
      unfold longTitle in Hlong. apply Nat.ltb_ge in Hlong.
      simpl String.length. lia.
Qed.

(** X18: the HTML listing.  [renderHtml] writes the head first and the
    foot last, also with no post; between them one header for every
    bucket that has a post and one entry for every post, whatever the
    length of its title. *)
Theorem renderHtml_writes (posts : list Post) (dateFormat : string) :
  renderHtml [] dateFormat = [htmlHead; htmlFoot]
  /\ hd_error (renderHtml posts dateFormat) = Some htmlHead
  /\ last (renderHtml posts dateFormat) EmptyString = htmlFoot
  /\ List.length (renderHtml posts dateFormat)
     = (2 + List.length (bucketLabels dateFormat
                                      (groupByDate posts dateFormat))
        + List.length posts)%nat
  /\ forall p, In p posts -> In (htmlPost p) (renderHtml posts dateFormat).
Proof.
  unfold renderHtml. split; [|split; [|split; [|split]]].
  - now rewrite groupByDate_nil.
  - reflexivity.
  - change (htmlHead :: ?l ++ [htmlFoot]) with ((htmlHead :: l) ++ [htmlFoot]).
    apply last_last.
  - cbn [List.length]. rewrite length_app, renderHtml_buckets_length.
    rewrite groupByDate_concat, (Permutation_length (sort_Sort_perm posts)).
    simpl. lia.
  - intros p Hp. right. apply in_or_app. left.
    assert (Hin : In p (List.concat (groupByDate posts dateFormat))).
    { rewrite groupByDate_concat.
      eapply Permutation_in; [apply Permutation_sym, sort_Sort_perm|exact Hp]. }
    apply in_concat in Hin. destruct Hin as (b & Hb & Hpb).
    apply in_flat_map. exists b. split; [exact Hb|].
    destruct b as [|q b]; [contradiction|]. simpl. right.
    rewrite renderHtmlGroup_tail.
    destruct Hpb as [->|Hpb]; [now left|right]. now apply in_map.
Qed.

(** X19: what the HTML listing shows in brackets.  For every post of a
    target it is the host of the address that [url.Parse] reads back
    from the target's address as handed to [fetchAll], or nothing when
    that does not parse: the command line's host, also when the feed
    was discovered at another address. *)
Theorem shortFeedLink_of_target (feed : URL) :
  Forall (fun p => shortFeedLink p
                   = match url_Parse (url_String feed) with
                     | inr _ => EmptyString
                     | inl u => Host u
                     end)
         (worker feed).
Proof.
  apply Forall_forall. intros p Hp. unfold shortFeedLink.
  now rewrite (worker_FeedLink feed p Hp).
Qed.

(** *** Grouper/Sorter: one label *)

Lemma chunks_one_label (df L : string) (l : list Post) :
  forall cur, Forall (fun p => label df p = L) l ->
              chunks df L cur l = [cur ++ l].
Proof.
  induction l as [|p l IH]; intros cur H; simpl.
  - now rewrite app_nil_r.
  - inversion H as [|? ? Hp Hl]; subst. rewrite String.eqb_refl.
    rewrite (IH (cur ++ [p]) Hl). now rewrite <- app_assoc.
Qed.

(** X21: posts that all have one label make one bucket.  When the label
    is the empty string, as with the empty layout, that bucket is the
    first one and no empty bucket comes before it; with any other label
    it follows the empty bucket the loop starts with. *)
Theorem groupByDate_one_label (posts : list Post) (dateFormat L : string) :
  (forall p, In p posts -> label dateFormat p = L) ->
  (L = EmptyString ->
   groupByDate posts dateFormat = [sort_Sort ByTimestamp_Less posts])
  /\ (L <> EmptyString -> posts <> [] ->
      groupByDate posts dateFormat = [[]; sort_Sort ByTimestamp_Less posts]).
Proof.
  intros Hlabel.
  assert (Hall : Forall (fun p => label dateFormat p = L)
                        (sort_Sort ByTimestamp_Less posts)).
  { apply Forall_forall. intros p Hp. apply Hlabel.
    eapply Permutation_in; [apply sort_Sort_perm|exact Hp]. }
  rewrite groupByDate_chunks. split.
  - intros ->. now rewrite chunks_one_label.
  - intros HL Hposts.
    destruct (sort_Sort ByTimestamp_Less posts) as [|p s] eqn:E.
    + exfalso. apply Hposts.
      apply Permutation_nil. rewrite <- E. apply sort_Sort_perm.
    + inversion Hall as [|? ? Hp Hs]; subst. simpl.
      destruct (String.eqb_spec (label dateFormat p) EmptyString) as [E'|_];
        [congruence|].
      now rewrite chunks_one_label.
Qed.

End Picofeed.

(** ** The exit code and the network *)

Lemma exitCode_0_or_1 (o : Outcome) : exitCode o = 0%Z \/ exitCode o = 1%Z.
Proof. destruct o; simpl; auto. Qed.

(** X20: the network and the feed parser decide whether a run ends, never
    the exit code of a run that ends.  Two runs on the same arguments,
    files and flags that both end have the same exit code, whatever the
    hosts answer; failed fetches only make the listing shorter.  A run
    ends unless its arguments resolve to targets whose posts are more
    than the channel of [fetchAll] holds; so a run on another network,
    where the posts fit, ends with the exit code of the first. *)
Theorem main_exit_code_offline
        (time_Format : Time -> string -> string)
        (sort_Sort : (Post -> Post -> bool) -> list Post -> list Post)
        (url_Parse : string -> URL + string) (url_String : URL -> string)
        (http_Do http_Do' : string -> Response)
        (gofeed_ParseString gofeed_ParseString' : string -> Feed + error)
        (os_Stat : string -> StatResult)
        (ioutil_ReadFile : string -> string + string)
        (ioutil_TempFile web : bool)
        (feedsList : list string) :
  let run :=
    main time_Format sort_Sort url_Parse url_String http_Do
         gofeed_ParseString os_Stat ioutil_ReadFile ioutil_TempFile web in
  let run' :=
    main time_Format sort_Sort url_Parse url_String http_Do'
         gofeed_ParseString' os_Stat ioutil_ReadFile ioutil_TempFile web in
  let fits' :=
    forall feeds,
      feedsList <> [] -> hd EmptyString feedsList <> "version" ->
      parseFeedArgs url_Parse os_Stat ioutil_ReadFile feedsList [] = inl feeds ->
      (Z.of_nat (List.length
                   (List.concat
                      (map (worker url_Parse url_String http_Do'
                                   gofeed_ParseString') feeds)))
       <= postChanCap)%Z in
  (forall o o', run feedsList o -> run' feedsList o' ->
                exitCode o = exitCode o')
  /\ ((exists o', run' feedsList o') <-> fits')
  /\ (forall o, run feedsList o -> fits' ->
        exists o', run' feedsList o' /\ exitCode o' = exitCode o).
Proof.
  intros run run' fits'.
  assert (Hsame : forall o o', run feedsList o -> run' feedsList o' ->
                               exitCode o = exitCode o').
  { intros o o' H H'.
    apply main_exit_code in H. apply main_exit_code in H'.
    destruct (exitCode_0_or_1 o) as [E|E], (exitCode_0_or_1 o') as [E'|E'];
      try congruence.
    - apply H in E. apply H' in E. congruence.
    - apply H' in E'. apply H in E'. congruence. }
  split; [exact Hsame|]. split.
  - apply main_ends_iff.
  - intros o Ho Hfits.
    destruct (proj2 (main_ends_iff time_Format sort_Sort url_Parse url_String
                       http_Do' gofeed_ParseString' os_Stat ioutil_ReadFile
                       ioutil_TempFile web feedsList) Hfits)
      as [o' Ho'].
    exists o'. split; [exact Ho'|]. symmetry. exact (Hsame o o' Ho Ho').
Qed.

(** ** The fixtures meet the contracts *)

Lemma insertStable_perm (less : Post -> Post -> bool) (x : Post) (l : list Post) :
  Permutation (insertStable less x l) (x :: l).
Proof.
  induction l as [|y l IH]; simpl; [reflexivity|].
  destruct (less y x); [|reflexivity].
  rewrite IH. apply perm_swap.
Qed.

Lemma insertionSort_perm (less : Post -> Post -> bool) (l : list Post) :
  Permutation (insertionSort less l) l.
Proof.
  induction l as [|x l IH]; simpl; [reflexivity|].
  rewrite insertStable_perm. now constructor.
Qed.

Lemma insertStable_sorted (x : Post) (l : list Post) :
  StronglySorted notBefore l ->
  StronglySorted notBefore (insertStable ByTimestamp_Less x l).
Proof.
  induction 1 as [|y l Hl IH Hy]; simpl.
  - repeat constructor.
  - destruct (ByTimestamp_Less y x) eqn:E.
    + constructor; [exact IH|].
      apply Forall_forall. intros z Hz.
      apply (Permutation_in _ (insertStable_perm _ _ _)) in Hz.
      destruct Hz as [<-|Hz].
      * apply notBefore_instant.
        unfold ByTimestamp_Less, Time_After in E. apply Z.ltb_lt in E.
        unfold instant. lia.
      * rewrite Forall_forall in Hy. now apply Hy.
    + constructor; [now constructor|].
      constructor; [exact E|].
      eapply Forall_impl; [|exact Hy]. intros z Hz.
      apply notBefore_instant. apply notBefore_instant in Hz.
      assert (Hxy : notBefore x y) by exact E.
      apply notBefore_instant in Hxy. lia.
Qed.

Lemma insertionSort_sorted (l : list Post) :
  StronglySorted notBefore (insertionSort ByTimestamp_Less l).
Proof.
  induction l as [|x l IH]; simpl; [constructor|].
  now apply insertStable_sorted.
Qed.

(** ** The theorems at work, and where the claims as written fail *)

Lemma groupByDate_buckets_witness :
  (forall l, Permutation (insertionSort ByTimestamp_Less l) l)
  /\ groupByDate formatJan2006 insertionSort [] "Jan 2006" = [[]].
Proof.
  split; [apply insertionSort_perm|].
  exact (proj1 (groupByDate_buckets formatJan2006 insertionSort
                  (insertionSort_perm ByTimestamp_Less) "Jan 2006")).
Defined.

(** C3 as written fails: the empty collection gives one bucket and not
    zero, and the first bucket of a one-post collection is empty. *)
Lemma groupByDate_buckets_counterexample :
  groupByDate formatJan2006 insertionSort [] "Jan 2006" = [[]]
  /\ List.length (groupByDate formatJan2006 insertionSort [] "Jan 2006")
     <> 0%nat
  /\ groupByDate formatJan2006 insertionSort [post1] "Jan 2006"
     = [[]; [post1]]
  /\ ~ Forall (fun bucket => bucket <> [])
              (groupByDate formatJan2006 insertionSort [post1] "Jan 2006").
Proof.
  assert (E : groupByDate formatJan2006 insertionSort [post1] "Jan 2006"
              = [[]; [post1]]) by (vm_compute; reflexivity).
  split; [vm_compute; reflexivity|].
  split; [vm_compute; discriminate|].
  split; [exact E|].
  rewrite E. intros H. inversion H as [|? ? Hnil _]. now apply Hnil.
Qed.

Lemma groupByDate_order_witness :
  (forall l, Permutation (insertionSort ByTimestamp_Less l) l)
  /\ (forall l, StronglySorted notBefore (insertionSort ByTimestamp_Less l))
  /\ Sorted (fun x y => x <> y)
       (bucketLabels formatJan2006 "Jan 2006"
          (groupByDate formatJan2006 insertionSort
                       [post3; post1; post4; post2] "Jan 2006")).
Proof.
  split; [apply insertionSort_perm|]. split; [apply insertionSort_sorted|].
  exact (proj1 (proj2 (proj2 (proj2 (proj2
           (groupByDate_order formatJan2006 insertionSort
              (insertionSort_perm ByTimestamp_Less) insertionSort_sorted
              [post3; post1; post4; post2] "Jan 2006")))))).
Defined.

(** C4 as written fails on four posts: the third comes before the fourth
    although its timestamp is not strictly after the fourth's, and the
    bucket labels, February, January, February, are strictly decreasing in
    no order of the labels. *)
Lemma groupByDate_order_counterexample :
  let grouped := groupByDate formatJan2006 insertionSort
                             [post1; post2; post3; post4] "Jan 2006" in
  grouped = [[]; [post1]; [post2]; [post3; post4]]
  /\ ByTimestamp_Less post3 post4 = false
  /\ bucketLabels formatJan2006 "Jan 2006" grouped
     = ["Feb 2023"; "Jan 2023"; "Feb 2023"]
  /\ forall before : string -> string -> Prop,
       (forall x, ~ before x x) ->
       (forall x y z, before x y -> before y z -> before x z) ->
       ~ Sorted (fun x y => before y x)
                (bucketLabels formatJan2006 "Jan 2006" grouped).
Proof.
  intros grouped.
  assert (E : bucketLabels formatJan2006 "Jan 2006" grouped
              = ["Feb 2023"; "Jan 2023"; "Feb 2023"])
    by (vm_compute; reflexivity).
  split; [vm_compute; reflexivity|].
  split; [vm_compute; reflexivity|].
  split; [exact E|].
  intros before Hirr Htrans Hs. rewrite E in Hs.
  inversion Hs as [|? ? Hs' H1]; subst.
  inversion Hs' as [|? ? _ H2]; subst.
  inversion H1; subst. inversion H2; subst.
  apply (Hirr "Feb 2023"). eapply Htrans; eassumption.
Qed.

Lemma groupByDate_same_timestamp_witness :
  exists bucket,
    In bucket (groupByDate formatJan2006 insertionSort
                           [postA; post1; postB] "Jan 2006")
    /\ In postA bucket /\ In postB bucket.
Proof.
  apply (groupByDate_same_timestamp formatJan2006 insertionSort
           (insertionSort_perm ByTimestamp_Less) insertionSort_sorted
           [postA; post1; postB] "Jan 2006" postA postB).
  - simpl; auto.
  - simpl; auto.
  - reflexivity.
  - discriminate.
  - intros p [<-|[<-|[<-|[]]]] E; try reflexivity.
    vm_compute in E. discriminate.
Defined.

(** C9 as written fails: the two posts have the same timestamp and
    different links, and a post of the same instant, shown in another
    zone, keeps them in different buckets. *)
Lemma groupByDate_same_timestamp_counterexample :
  let grouped := groupByDate formatJan2006 insertionSort
                             [postA; postC; postB] "Jan 2006" in
  grouped = [[]; [postA]; [postC]; [postB]]
  /\ Timestamp postA = Timestamp postB
  /\ Link postA <> Link postB
  /\ ~ exists bucket, In bucket grouped /\ In postA bucket /\ In postB bucket.
Proof.
  intros grouped.
  assert (E : grouped = [[]; [postA]; [postC]; [postB]])
    by (vm_compute; reflexivity).
  split; [exact E|].
  split; [reflexivity|].
  split; [discriminate|].
  rewrite E. intros (bucket & Hb & Ha & Hb').
  assert (Hab : postA <> postB) by discriminate.
  assert (Hac : postA <> postC) by discriminate.
  assert (Hcb : postC <> postB) by discriminate.
  destruct Hb as [<-|[<-|[<-|[<-|[]]]]].
  - destruct Ha.
  - destruct Hb' as [Hb'|[]]. now apply Hab.
  - destruct Ha as [Ha|[]]. now apply Hac.
  - destruct Ha as [Ha|[]]. now apply Hab.
Qed.

(** On a page with the two link tags on two lines, the rss link is found. *)
Example extractFeedLink_two_lines :
  extractFeedLink urlParse (httpURL "a.example" "/") pageTwoLines
  = Some (httpURL "a.example" "/rss.xml").
Proof. vm_compute. reflexivity. Qed.



(** Scenarios 2 and 3: an item with only an updated time gives a post
    with that time; an item with no time gives no post; a published time
    is preferred. *)
Example parseFeed_scenarios :
  parseFeed urlString (httpURL "a.example" "/feed.xml")
    (mkFeed "A"
       [ mkItem "Two" "http://a.example/2" None (Some t_jan31_2330_utc);
         mkItem "None" "http://a.example/0" None None;
         mkItem "One" "http://a.example/1" (Some t_feb15_utc)
                (Some t_jan31_2300_utc) ])
  = ([ mkPost "Two" "http://a.example/2" t_jan31_2330_utc
              "http://a.example/feed.xml" "A";
       mkPost "One" "http://a.example/1" t_feb15_utc
              "http://a.example/feed.xml" "A" ],
     None).
Proof. reflexivity. Qed.

(** Scenario 4: the page of [b.example] links to [/feed.xml], which is a
    page as well; two requests, and the type-not-detected error. *)
Example fetchFeed_two_pages :
  fetchFeed urlParse urlString internet parseString 2
            (httpURL "b.example" "/") 0
  = (["http://b.example/"; "http://b.example/feed.xml"],
     Some (inr ErrFeedTypeNotDetected)).
Proof. vm_compute. reflexivity. Qed.

Lemma fetchAll_FeedLink_witness :
  exists feed,
    In feed [homeURL]
    /\ In postOne (worker urlParse urlString internet parseString feed)
    /\ FeedLink postOne = urlString feed.
Proof.
  apply (fetchAll_FeedLink urlParse urlString internet parseString
           [homeURL]
           (worker urlParse urlString internet parseString homeURL)).
  - apply fetchAll_one. vm_compute. discriminate.
  - vm_compute. left. reflexivity.
Defined.

(** C1 as written fails: the target [http://a.example/] is a page, the
    feed is discovered and fetched at [http://a.example/feed.xml], and the
    post that [fetchAll] returns carries the target's address. *)
Lemma fetchAll_FeedLink_counterexample :
  fetchFeed urlParse urlString internet parseString 2 homeURL 0
  = (["http://a.example/"; "http://a.example/feed.xml"], Some (inl feedA))
  /\ fetchAll urlParse urlString internet parseString [homeURL] [postOne]
  /\ FeedLink postOne = "http://a.example/"
  /\ FeedLink postOne <> "http://a.example/feed.xml".
Proof.
  split; [vm_compute; reflexivity|]. split; [|split; [reflexivity|discriminate]].
  change [postOne]
    with (worker urlParse urlString internet parseString homeURL).
  apply fetchAll_one. vm_compute. discriminate.
Qed.

Lemma fetchAll_partial_failure_witness :
  let feeds := [httpURL "c.example" "/feed.xml"; homeURL;
                httpURL "b.example" "/"] in
  filter (succeeded urlParse urlString internet parseString) feeds = [homeURL]
  /\ (exists posts,
        fetchAll urlParse urlString internet parseString feeds posts)
  /\ forall posts,
       fetchAll urlParse urlString internet parseString feeds posts ->
       posts = fst (parseFeed urlString homeURL feedA) /\ posts = [postOne].
Proof.
  intros feeds. split; [vm_compute; reflexivity|].
  destruct (fetchAll_partial_failure urlParse urlString internet parseString
              feeds ltac:(vm_compute; discriminate))
    as (Hreturns & _ & _ & Hsent & _).
  split; [exact Hreturns|].
  intros posts Hposts.
  destruct (Hsent posts Hposts) as (sent & Hall & Hperm).
  inversion Hall as [|? q1 ? sent1 [_ H1] Hall1]; subst.
  inversion Hall1 as [|? q2 ? sent2 [H2 _] Hall2]; subst.
  inversion Hall2 as [|? q3 ? sent3 [_ H3] Hall3]; subst.
  inversion Hall3; subst.
  rewrite (H1 eq_refl), (H2 feedA eq_refl), (H3 eq_refl) in Hperm.
  apply Permutation_sym, Permutation_length_1_inv in Hperm.
  split; exact Hperm.
Defined.

Lemma concat_map_one {A B : Type} (f : A -> list B) (x : A) :
  List.concat (map f [x]) = f x.
Proof. simpl. apply app_nil_r. Qed.

(** The posts of the big feed: one more than the channel holds. *)
Lemma bigURL_posts :
  snd (fetchFeed urlParse urlString bigInternet bigParseString 2 bigURL 0)
  = Some (inl bigFeed)
  /\ worker urlParse urlString bigInternet bigParseString bigURL
     = fst (parseFeed urlString bigURL bigFeed)
  /\ Z.of_nat (List.length (fst (parseFeed urlString bigURL bigFeed)))
     = (postChanCap + 1)%Z.
Proof.
  assert (Hfetch : snd (fetchFeed urlParse urlString bigInternet
                          bigParseString 2 bigURL 0) = Some (inl bigFeed))
    by reflexivity.
  split; [exact Hfetch|]. split.
  - unfold worker. now rewrite Hfetch.
  - assert (Hlen : List.length (fst (parseFeed urlString bigURL bigFeed))
                   = manyItems)
      by (apply parseFeed_repeat; discriminate).
    rewrite Hlen. unfold manyItems, postChanCap. rewrite Z2Nat.id; lia.
Qed.

(** C2 fails in the code: of two targets the first one does not answer,
    the second one's feed gives 10001 posts, one more than the buffer of
    the channel holds.  Nothing reads the channel before [wg.Wait()]
    returns, so the goroutine blocks on its last send and [fetchAll]
    returns nothing at all, where the claim has it return the 10001
    posts.  The healthy target alone blocks it the same way. *)
Theorem fetchAll_big_feed_blocks :
  let failing := httpURL "c.example" "/feed.xml" in
  snd (fetchFeed urlParse urlString bigInternet bigParseString 2 failing 0)
  = Some (inr (ErrTransport "no such host"))
  /\ snd (fetchFeed urlParse urlString bigInternet bigParseString 2 bigURL 0)
     = Some (inl bigFeed)
  /\ worker urlParse urlString bigInternet bigParseString bigURL
     = fst (parseFeed urlString bigURL bigFeed)
  /\ Z.of_nat (List.length (fst (parseFeed urlString bigURL bigFeed)))
     = (postChanCap + 1)%Z
  /\ (forall posts,
        ~ fetchAll urlParse urlString bigInternet bigParseString
                   [failing; bigURL] posts)
  /\ (forall posts,
        ~ fetchAll urlParse urlString bigInternet bigParseString
                   [bigURL] posts).
Proof.
  intros failing.
  assert (Hfail : snd (fetchFeed urlParse urlString bigInternet
                         bigParseString 2 failing 0)
                  = Some (inr (ErrTransport "no such host")))
    by reflexivity.
  destruct bigURL_posts as (Hfetch & Hworker & Hlen).
  split; [exact Hfail|]. split; [exact Hfetch|]. split; [exact Hworker|].
  split; [exact Hlen|]. split.
  - apply fetchAll_blocks. unfold map, List.concat.
    unfold worker at 1. rewrite Hfail, app_nil_r. cbn [app].
    rewrite Hworker, Hlen. lia.
  - apply fetchAll_blocks. rewrite concat_map_one, Hworker, Hlen. lia.
Qed.

Lemma parseFeedArg_file_witness :
  parseFeedArg urlParse stat readFile "feeds.txt"
  = inl [httpURL "a.example" "/feed.xml"; httpURL "b.example" "/feed.xml"]
  /\ parseFeedArg urlParse stat readFile "bad.txt"
     = inr (ErrUrlParse ":foo" "missing protocol scheme").
Proof.
  destruct (parseFeedArg_file urlParse stat readFile "feeds.txt" feedsFile
              eq_refl eq_refl) as (_ & _ & Hfile).
  destruct (parseFeedArg_file urlParse stat readFile "bad.txt" badFile
              eq_refl eq_refl) as (_ & Hbad & _).
  split.
  - apply (Hfile ["http://a.example/feed.xml"; "http://b.example/feed.xml"]).
    + right. reflexivity.
    + repeat constructor; discriminate.
    + repeat constructor.
  - apply (Hbad ["http://a.example/feed.xml"] ":foo"
                ["http://b.example/feed.xml"]).
    + reflexivity.
    + repeat constructor. now exists (httpURL "a.example" "/feed.xml").
    + reflexivity.
Defined.

Lemma main_empty_feed_list_witness :
  main formatJan2006 insertionSort urlParse urlString internet parseString
       stat readFile true false ["empty.txt"] (Rendered [[]]).
Proof.
  apply (main_empty_feed_list formatJan2006 insertionSort urlParse urlString
           internet parseString stat readFile true false
           (insertionSort_perm ByTimestamp_Less)).
  - discriminate.
  - discriminate.
  - reflexivity.
  - reflexivity.
Defined.

(** C8 as written fails: the argument names an empty file, resolution
    gives no address, and every run ends with the empty listing and exit
    code 0. *)
Lemma main_empty_feed_list_counterexample :
  parseFeedArgs urlParse stat readFile ["empty.txt"] [] = inl []
  /\ main formatJan2006 insertionSort urlParse urlString internet parseString
          stat readFile true false ["empty.txt"] (Rendered [[]])
  /\ forall o,
       main formatJan2006 insertionSort urlParse urlString internet
            parseString stat readFile true false ["empty.txt"] o ->
       o = Rendered [[]] /\ exitCode o = 0%Z.
Proof.
  destruct (main_no_targets formatJan2006 insertionSort urlParse urlString
              internet parseString stat readFile true false
              (insertionSort_perm ByTimestamp_Less) ["empty.txt"])
    as [Hall Hrun]; try discriminate; try reflexivity.
  split; [reflexivity|]. split.
  - apply Hrun. reflexivity.
  - intros o Ho. destruct (Hall o Ho) as [H|(_ & H & _)];
      [exact H|discriminate].
Qed.

(** ** The further properties at work *)

Lemma groupByDate_order_independent_witness :
  groupByDate formatJan2006 insertionSort [post2; post1] "Jan 2006"
  = groupByDate formatJan2006 insertionSort [post1; post2] "Jan 2006".
Proof.
  apply (groupByDate_order_independent formatJan2006 insertionSort
           (insertionSort_perm ByTimestamp_Less) insertionSort_sorted
           [post2; post1] [post1; post2] "Jan 2006").
  - vm_compute. constructor.
    + intros [H|[]]. discriminate H.
    + constructor; [intros []|constructor].
  - apply perm_swap.
Defined.

Lemma main_deterministic_witness :
  exists o,
    main formatJan2006 insertionSort urlParse urlString internet parseString
         stat readFile true false ["http://a.example/"] o
    /\ forall o',
         main formatJan2006 insertionSort urlParse urlString internet
              parseString stat readFile true false ["http://a.example/"] o' ->
         o' = o.
Proof.
  apply (main_deterministic formatJan2006 insertionSort urlParse urlString
           internet parseString stat readFile true false
           (insertionSort_perm ByTimestamp_Less) insertionSort_sorted
           ["http://a.example/"]).
  - intros feeds H. vm_compute in H. injection H as <-.
    vm_compute. constructor; [intros []|constructor].
  - intros feeds H. vm_compute in H. injection H as <-.
    vm_compute. discriminate.
Defined.

Lemma linkRegexp_match_witness :
  exists before after ws a b href,
    pageTwoLines
    = (before ++ linkText "application/rss+xml" ws a b href ++ after)%string
    /\ every Regexp.notQuote href = true.
Proof.
  destruct (linkRegexp_match
              "application/rss+xml" pageTwoLines
              (hd EmptyString
                  (Regexp.FindStringSubmatch
                     (linkRegexp "application/rss+xml") pageTwoLines))
              (tl (Regexp.FindStringSubmatch
                     (linkRegexp "application/rss+xml") pageTwoLines)))
    as (before & after & ws & a & b & href & _ & Hc & Hw & _ & _ & _ & Hq & _).
  - vm_compute. reflexivity.
  - exists before, after, ws, a, b, href. rewrite <- Hw. now split.
Defined.

Lemma linkRegexp_finds_witness :
  exists whole href,
    Regexp.FindStringSubmatch (linkRegexp "application/rss+xml")
      ("<html><head>"
         ++ linkText "application/rss+xml" ""
                     (" rel=" ++ quoted "alternate" ++ " ") (dquote ++ " ")
                     "/rss.xml"
         ++ "></head></html>")
    = [whole; href]
    /\ every Regexp.notQuote href = true.
Proof.
  apply (linkRegexp_finds "application/rss+xml" "<html><head>" ""
           (" rel=" ++ quoted "alternate" ++ " ") (dquote ++ " ")
           "/rss.xml" "></head></html>"); vm_compute; reflexivity.
Defined.

Lemma fetchAll_target_order_witness :
  subseq (worker urlParse urlString internet parseString feedURL)
         (worker urlParse urlString internet parseString feedURL).
Proof.
  apply (fetchAll_target_order urlParse urlString internet parseString
           [feedURL]
           (worker urlParse urlString internet parseString feedURL)).
  - apply fetchAll_one. vm_compute. discriminate.
  - now left.
Defined.

Lemma fetchAll_any_order_witness :
  fetchAll urlParse urlString internet parseString [homeURL; feedURL]
           [postDirect; postOne]
  /\ fetchAll urlParse urlString internet parseString [homeURL; feedURL]
              [postOne; postDirect].
Proof.
  assert (E1 : sentInOrder [1; 0]%nat
                 (map (worker urlParse urlString internet parseString)
                      [homeURL; feedURL])
               = [postDirect; postOne]) by (vm_compute; reflexivity).
  assert (E2 : List.concat
                 (map (worker urlParse urlString internet parseString)
                      [homeURL; feedURL])
               = [postOne; postDirect]) by (vm_compute; reflexivity).
  rewrite <- E1, <- E2.
  apply (fetchAll_any_order urlParse urlString internet parseString
           [homeURL; feedURL] [1; 0]%nat).
  - vm_compute. discriminate.
  - apply perm_swap.
Defined.

Lemma render_writes_witness :
  List.length (render formatJan2006 insertionSort runeCountASCII
                      [post2; post1] "Jan 2006")
  = (List.length (bucketLabels formatJan2006 "Jan 2006"
                    (groupByDate formatJan2006 insertionSort [post2; post1]
                                 "Jan 2006"))
     + 2 + 0)%nat.
Proof.
  exact (proj1 (proj2 (render_writes formatJan2006 insertionSort
                         runeCountASCII (insertionSort_perm ByTimestamp_Less)
                         [post2; post1] "Jan 2006"))).
Defined.

Lemma renderHtml_writes_witness :
  renderHtml formatJan2006 insertionSort urlParse [] "Jan 2006"
  = [htmlHead; htmlFoot].
Proof.
  exact (proj1 (renderHtml_writes formatJan2006 insertionSort urlParse
                  (insertionSort_perm ByTimestamp_Less) [] "Jan 2006")).
Defined.

(** The same arguments on two networks.  Where [big.example] does not
    answer the run ends with the empty listing; where it serves its 10001
    posts the run never ends.  And the target [a.example], fetched on the
    first network, is out of reach on the second: the run ends there too,
    with exit code 0. *)
Lemma main_exit_code_offline_witness :
  main formatJan2006 insertionSort urlParse urlString internet parseString
       stat readFile true false ["http://big.example/feed.xml"]
       (Rendered [[]])
  /\ (forall o',
        ~ main formatJan2006 insertionSort urlParse urlString bigInternet
               bigParseString stat readFile true false
               ["http://big.example/feed.xml"] o')
  /\ exists o',
       main formatJan2006 insertionSort urlParse urlString bigInternet
            bigParseString stat readFile true false ["http://a.example/"] o'
       /\ exitCode o' = 0%Z.
Proof.
  split; [|split].
  - apply (main_render formatJan2006 insertionSort urlParse urlString internet
             parseString stat readFile true false
             ["http://big.example/feed.xml"] [bigURL] []).
    + discriminate.
    + discriminate.
    + vm_compute. reflexivity.
    + change (@nil Post)
        with (worker urlParse urlString internet parseString bigURL).
      apply fetchAll_one. vm_compute. discriminate.
    + discriminate.
  - intros o' Ho'.
    destruct (main_exit_code_offline formatJan2006 insertionSort urlParse
                urlString internet bigInternet parseString bigParseString
                stat readFile true false ["http://big.example/feed.xml"])
      as (_ & [Hfits _] & _).
    assert (Hroom := Hfits (ex_intro _ o' Ho') [bigURL]
                       ltac:(discriminate) ltac:(discriminate) eq_refl).
    destruct bigURL_posts as (_ & Hworker & Hlen).
    rewrite concat_map_one, Hworker, Hlen in Hroom. lia.
  - destruct (main_exit_code_offline formatJan2006 insertionSort urlParse
                urlString internet bigInternet parseString bigParseString
                stat readFile true false ["http://a.example/"])
      as (_ & _ & Hends).
    apply (Hends (Rendered (groupByDate formatJan2006 insertionSort
                              (worker urlParse urlString internet parseString
                                      homeURL) "Jan 2006"))).
    + apply (main_render formatJan2006 insertionSort urlParse urlString
               internet parseString stat readFile true false
               ["http://a.example/"] [homeURL]).
      * discriminate.
      * discriminate.
      * vm_compute. reflexivity.
      * apply fetchAll_one. vm_compute. discriminate.
      * discriminate.
    + intros feeds _ _ H.
      assert (Hfeeds : feeds = [homeURL])
        by (vm_compute in H; now injection H as <-).
      assert (E : worker urlParse urlString bigInternet bigParseString homeURL
                  = []) by reflexivity.
      rewrite Hfeeds, concat_map_one, E. clear. vm_compute. discriminate.
Defined.

Lemma groupByDate_one_label_witness :
  groupByDate formatJan2006 insertionSort [post2; post1] EmptyString
  = [insertionSort ByTimestamp_Less [post2; post1]].
Proof.
  apply (groupByDate_one_label formatJan2006 insertionSort
           (insertionSort_perm ByTimestamp_Less)
           [post2; post1] EmptyString EmptyString).
  - intros p _. reflexivity.
  - reflexivity.
Defined.
